(** * Search orchestration core of kite-public

    A shallow embedding of [src/lib/services/search/SearchService.ts] and of
    [src/lib/services/search/ContentEditableChipService.ts] ([cleanup]
    apart, which tells elements by their tag).

    Conventions of the embedding.
    - JavaScript numbers that the code only ever uses as integers
      (selectedIndex, currentOffset, totalCount, requestId) are [Z]; the
      counters stay far below 2^53, where [+ 1] on a double is exact.
    - [null] and [undefined] are [None].
    - Strings are [string], read as sequences of code units.
    - The asynchronous methods are cut at their suspension points: the
      synchronous prefix of a call, each promise handler and each
      continuation after an [await] is one function on the service, and a
      run of the program is a list of such events.
    - The DOM under the contenteditable element is a tree of text nodes,
      filter chips and other elements. A selection names its start
      container by a path in that tree, or, for a node elsewhere in the
      document, by what the code reads of it.
    - The progress callbacks a caller may pass ([onLocalComplete] and the
      like) are the caller's code; they receive values and are left out.
    - Components of the repository that are not part of this development
      (the executor, the filter parser, the feature flags, the constants of
      [types.ts], the [Story] type) are parameters. *)

From Stdlib Require Import ZArith Ascii String.
From stdpp Require Import base gmap sets list strings.

#[local] Open Scope Z_scope.
#[local] Set Warnings "-register-all".

(** ** JavaScript string helpers *)

Module JS.

(** [s.includes(" ")] *)
Fixpoint includes_space (s : string) : bool :=
  match s with
  | EmptyString => false
  | String c rest => if Ascii.eqb c " "%char then true else includes_space rest
  end.

(** Truthiness of a string value: every string but the empty one. *)
Definition truthy_string (s : string) : bool :=
  match s with
  | EmptyString => false
  | String _ _ => true
  end.

(** Truthiness of [string | undefined]. *)
Definition truthy (v : option string) : bool :=
  match v with
  | Some s => truthy_string s
  | None => false
  end.

(** [s.substring(0, n)] and [s.substring(n)] for [0 <= n]. *)
Fixpoint substring_to (n : nat) (s : string) : string :=
  match n, s with
  | S n', String c rest => String c (substring_to n' rest)
  | _, _ => EmptyString
  end.

Fixpoint substring_from (n : nat) (s : string) : string :=
  match n, s with
  | S n', String _ rest => substring_from n' rest
  | _, _ => s
  end.

(** The white space and line terminator code units below 256, which
    [trim] strips: TAB, LF, VT, FF, CR, SPACE and NBSP. *)
Definition is_whitespace (c : ascii) : bool :=
  let n := nat_of_ascii c in
  ((9 <=? n)%nat && (n <=? 13)%nat) || (n =? 32)%nat || (n =? 160)%nat.

Fixpoint contains_whitespace (s : string) : bool :=
  match s with
  | EmptyString => false
  | String c rest => is_whitespace c || contains_whitespace rest
  end.

(** Truthiness of [s.trim()]: some code unit of [s] is not whitespace. *)
Fixpoint trim_truthy (s : string) : bool :=
  match s with
  | EmptyString => false
  | String c rest => negb (is_whitespace c) || trim_truthy rest
  end.

(** A lower-casing of the code units A-Z, used to instantiate the
    [toLowerCase] parameter on concrete inputs. *)
Definition lower_ascii (c : ascii) : ascii :=
  let n := nat_of_ascii c in
  if ((65 <=? n)%nat && (n <=? 90)%nat) then ascii_of_nat (n + 32) else c.

Fixpoint lower (s : string) : string :=
  match s with
  | EmptyString => EmptyString
  | String c rest => String (lower_ascii c) (lower rest)
  end.

End JS.

(** ** Data model ([types.ts], as used by the two services) *)

Record SearchFilter := mkFilter {
  type : string;
  value : string;
  display : string;
  isValid : bool;
}.

Record FilterSuggestion := mkSuggestion {
  s_value : string;
  s_display : string;
  s_label : string;
  isFilterType : bool;
}.

Record FilterContext := mkContext {
  c_type : string;
  startIndex : nat;
  fullMatch : string;
}.

Section DataModel.

(** [Story] comes from [$lib/types]; the search core reads only its
    optional title. *)
Context {Story : Type}.

Record SearchResult := mkResult {
  story : Story;
  batchId : option string;
}.

Record SearchState := mkState {
  query : string;
  filters : list SearchFilter;
  results : list SearchResult;
  isLoading : bool;
  isLoadingMore : bool;
  hasMore : bool;
  selectedIndex : Z;
  totalCount : Z;
  currentOffset : Z;
  allHistoricalResults : list SearchResult;
}.

(** The envelope the executor resolves with. *)
Record ExecutorResult := mkExecutorResult {
  localResults : list SearchResult;
  localCount : Z;
  historicalResults : list SearchResult;
  historicalCount : Z;
  r_hasMore : bool;
}.

End DataModel.

Arguments SearchResult : clear implicits.
Arguments SearchState : clear implicits.
Arguments ExecutorResult : clear implicits.

(** ** combineResults (SearchService.ts, lines 382-401) *)

Section Combine.

Context {Story : Type}.
Variable title : Story -> option string.
Variable toLowerCase : string -> string.

(** [r.story.title?.toLowerCase()] *)
Definition lowerTitle (r : SearchResult Story) : option string :=
  toLowerCase <$> title (story r).

(** The [for ... of] loop over the historical results; [combined] and
    [existingTitles] are the two mutable locals. *)
Fixpoint combine_loop (historicalResults combined : list (SearchResult Story))
    (existingTitles : gset (option string)) : list (SearchResult Story) :=
  match historicalResults with
  | [] => combined
  | result :: rest =>
      let t := lowerTitle result in
      if JS.truthy t && negb (bool_decide (t ∈ existingTitles))
      then combine_loop rest (combined ++ [result]) ({[ t ]} ∪ existingTitles)
      else combine_loop rest combined existingTitles
  end.

Definition combineResults (localResults historicalResults : list (SearchResult Story))
    : list (SearchResult Story) :=
  combine_loop historicalResults localResults
    (list_to_set (lowerTitle <$> localResults)).

End Combine.

(** ** ContentEditableChipService.ts *)

Module Chip.

(** The double quote as a one-unit string. *)
Definition dquote : string := String "034"%char EmptyString.

(** Children of the contenteditable element, as far as the service
    tells them apart: text nodes, filter chips (elements of class
    [filter-chip] with their [data-filter] and [data-filter-type]
    attributes and the display value put in their markup), and any other
    element. *)
Inductive Node :=
| TextNode (textContent : string)
| FilterChip (dataFilter dataFilterType displayValue : string)
| OtherElement (children : list Node).

Record ChipService := mkChipService {
  element : option (list Node);
  (** [Map<string, SearchFilter>], in insertion order. *)
  appliedFilters : list (string * SearchFilter);
}.

(** [Map.prototype.set]: an existing key keeps its place. *)
Fixpoint map_set (k : string) (v : SearchFilter) (m : list (string * SearchFilter))
    : list (string * SearchFilter) :=
  match m with
  | [] => [(k, v)]
  | (k', v') :: m' =>
      if String.eqb k' k then (k, v) :: m' else (k', v') :: map_set k v m'
  end.

Definition map_delete (k : string) (m : list (string * SearchFilter))
    : list (string * SearchFilter) :=
  List.filter (fun kv => negb (String.eqb (fst kv) k)) m.

(** Where a range starts. A node in the tree of the element is named by
    the child indices that lead to it from the element: [[]] is the
    element itself, [[i]] its child [i], [[i; j]] child [j] of child
    [i]; a path that runs on through a chip names a node of the chip's
    markup. A node elsewhere in the document is given by what lines
    241-249 read of it: whether it is a text node, and the [data-filter]
    (or the empty string) of its previous sibling when that sibling is a
    filter chip. *)
Inductive Container :=
| Within (path : list nat)
| Elsewhere (isText : bool) (previousChip : option string).

(** The collapsed-or-not range of [window.getSelection()]. *)
Record Range := mkRange {
  collapsed : bool;
  startOffset : nat;
  startContainer : Container;
}.

Record DeletionResult := mkDeletion {
  deleted : bool;
  filterText : option string;
}.

Section WithMarkup.

(** The text content the browser derives from a chip's markup
    (lines 214-217), given its type and display value. *)
Variable chipText : string -> string -> string.

(** [getTextFromNode] (lines 39-52), called on non-chip elements. *)
Fixpoint getTextFromNode (node : Node) : string :=
  match node with
  | OtherElement children =>
      (fix walk (cs : list Node) : string :=
         match cs with
         | [] => EmptyString
         | child :: cs' =>
             match child with
             | TextNode s => s
             | FilterChip _ _ _ => EmptyString
             | OtherElement _ => getTextFromNode child
             end +:+ walk cs'
         end) children
  | _ => EmptyString
  end.

(** [getText] (lines 18-37). *)
Definition getText (cs : ChipService) : string :=
  match element cs with
  | None => EmptyString
  | Some nodes =>
      foldl (fun text node =>
               text +:+ match node with
                        | TextNode s => s
                        | FilterChip f _ _ => f
                        | OtherElement _ => getTextFromNode node
                        end) EmptyString nodes
  end.

(** [node.textContent] *)
Fixpoint textContent (node : Node) : string :=
  match node with
  | TextNode s => s
  | FilterChip _ t d => chipText t d
  | OtherElement children =>
      (fix walk (cs : list Node) : string :=
         match cs with
         | [] => EmptyString
         | child :: cs' => textContent child +:+ walk cs'
         end) children
  end.

Definition elementTextContent (nodes : list Node) : string :=
  foldr (fun node text => textContent node +:+ text) EmptyString nodes.

(** Lines 90-94: the completed filter token. *)
Definition completedFilter (ctxType : string) (suggestionValue : string) : string :=
  let needsQuotes := JS.includes_space suggestionValue in
  let filterValue :=
    if needsQuotes then dquote +:+ suggestionValue +:+ dquote else suggestionValue in
  ctxType +:+ ":" +:+ filterValue.

(** [a || b] on strings. *)
Definition or_else (a b : string) : string :=
  if JS.truthy_string a then a else b.

(** [createChip] (lines 200-220). *)
Definition createChip (ctype filterText displayValue : string) : Node :=
  FilterChip filterText ctype displayValue.

Definition text_if_truthy (s : string) : list Node :=
  if JS.truthy_string s then [TextNode s] else [].

(** [replacePartialText] (lines 110-139); the caret placement acts on
    the browser's selection only. *)
Definition replacePartialText (context : FilterContext) (newText : string)
    (cs : ChipService) : ChipService * bool :=
  match element cs with
  | None => (cs, false)
  | Some nodes =>
      let content := elementTextContent nodes in
      let beforeFilter := JS.substring_to (startIndex context) content in
      let afterFilter :=
        JS.substring_from (startIndex context + String.length (fullMatch context)) content in
      (mkChipService
         (Some (text_if_truthy beforeFilter ++ [TextNode newText]
                ++ text_if_truthy afterFilter))
         (appliedFilters cs), true)
  end.

(** [replacePartialTextWithChip] (lines 144-195). *)
Definition replacePartialTextWithChip (context : FilterContext) (chip : Node)
    (suggestion : FilterSuggestion) (cs : ChipService) : ChipService * bool :=
  match element cs with
  | None => (cs, false)
  | Some nodes =>
      let content := elementTextContent nodes in
      let beforeFilter := JS.substring_to (startIndex context) content in
      let afterFilter :=
        JS.substring_from (startIndex context + String.length (fullMatch context)) content in
      let rebuilt :=
        text_if_truthy beforeFilter ++ [chip; TextNode " "]
        ++ (if JS.trim_truthy afterFilter then [TextNode afterFilter] else []) in
      let tracked :=
        if String.eqb (c_type context) "suggestion" then appliedFilters cs
        else
          let filterText :=
            match chip with FilterChip f _ _ => f | _ => EmptyString end in
          let filterValue := s_value suggestion in
          let filterDisplay := or_else (s_display suggestion) filterValue in
          map_set filterText
            (mkFilter (c_type context) filterValue filterDisplay true)
            (appliedFilters cs) in
      (mkChipService (Some rebuilt) tracked, true)
  end.

(** [applyFilterSuggestion] (lines 78-105). *)
Definition applyFilterSuggestion (suggestion : FilterSuggestion)
    (context : FilterContext) (cs : ChipService) : ChipService * bool :=
  match element cs with
  | None => (cs, false)
  | Some _ =>
      if isFilterType suggestion
      then replacePartialText context (s_value suggestion) cs
      else
        let chip :=
          createChip (c_type context)
            (completedFilter (c_type context) (s_value suggestion))
            (or_else (s_display suggestion) (s_value suggestion)) in
        replacePartialTextWithChip context chip suggestion cs
  end.

End WithMarkup.

(** [Node.normalize]: empty text nodes go, adjacent text nodes merge. *)
Definition merge_text (node : Node) (rest : list Node) : list Node :=
  match node with
  | TextNode s =>
      if JS.truthy_string s then
        match rest with
        | TextNode s' :: rest' => TextNode (s +:+ s') :: rest'
        | _ => node :: rest
        end
      else rest
  | _ => node :: rest
  end.

Fixpoint normalize_node (node : Node) : Node :=
  match node with
  | OtherElement children =>
      OtherElement
        ((fix walk (cs : list Node) : list Node :=
            match cs with
            | [] => []
            | child :: cs' => merge_text (normalize_node child) (walk cs')
            end) children)
  | _ => node
  end.

Definition normalize (nodes : list Node) : list Node :=
  foldr (fun node rest => merge_text (normalize_node node) rest) [] nodes.

(** Lines 238-255 for a container in the tree of the element, found by
    its path among [nodes]: when the container is a text node whose
    previous sibling is a filter chip, the chip's [data-filter] and the
    tree without the chip. The siblings are those under the container's
    own parent, at any depth. The markup of a chip (lines 214-217, around
    a display value that is plain text) holds no filter chip, so a
    container inside it finds none. *)
Fixpoint chip_before (nodes : list Node) (path : list nat) : option (string * list Node) :=
  match path with
  | [] => None
  | i :: rest =>
      match rest with
      | [] =>
          match nodes !! i, i with
          | Some (TextNode _), S previous =>
              match nodes !! previous with
              | Some (FilterChip f _ _) => Some (f, delete previous nodes)
              | _ => None
              end
          | _, _ => None
          end
      | _ :: _ =>
          match nodes !! i with
          | Some (OtherElement children) =>
              match chip_before children rest with
              | Some (f, children') => Some (f, <[i := OtherElement children']> nodes)
              | None => None
              end
          | _ => None
          end
      end
  end.

(** [handleBackspaceChipDeletion] (lines 225-267); [selection] is what
    [window.getSelection()] holds, [None] when it has no range. The
    code asks nowhere whether the container lies in the element: a chip
    before a text node elsewhere in the document is removed there, its
    key is deleted here and the element is normalized. *)
Definition handleBackspaceChipDeletion (selection : option Range) (cs : ChipService)
    : ChipService * DeletionResult :=
  let no := (cs, mkDeletion false None) in
  match element cs, selection with
  | Some nodes, Some range =>
      if collapsed range && Nat.eqb (startOffset range) 0 then
        match startContainer range with
        | Within path =>
            match chip_before nodes path with
            | Some (f, nodes') =>
                (mkChipService (Some (normalize nodes'))
                               (map_delete f (appliedFilters cs)),
                 mkDeletion true (Some f))
            | None => no
            end
        | Elsewhere true (Some f) =>
            (mkChipService (Some (normalize nodes))
                           (map_delete f (appliedFilters cs)),
             mkDeletion true (Some f))
        | Elsewhere _ _ => no
        end
      else no
  | _, _ => no
  end.

(** [getAppliedFilters] (lines 360-362). *)
Definition getAppliedFilters (cs : ChipService) : list SearchFilter :=
  snd <$> appliedFilters cs.

(** [clear] (lines 367-372). *)
Definition clear (cs : ChipService) : ChipService :=
  match element cs with
  | None => cs
  | Some _ => mkChipService (Some []) []
  end.

End Chip.

(** ** SearchService.ts *)

(** [SearchOptions], and the [Partial<SearchOptions>] a caller may pass:
    a key that is absent is [None]. The abort signal is the address of its
    controller. *)
Record SearchOptions := mkOptions {
  includeLocal : bool;
  includeHistorical : bool;
  limit : Z;
  offset : Z;
  abortSignal : option nat;
}.

Record PartialOptions := mkPartial {
  p_includeLocal : option bool;
  p_includeHistorical : option bool;
  p_limit : option Z;
  p_offset : option Z;
  p_abortSignal : option (option nat);
}.

(** [{ ...base, ...options }] *)
Definition spread (base : SearchOptions) (options : PartialOptions) : SearchOptions :=
  mkOptions (default (includeLocal base) (p_includeLocal options))
            (default (includeHistorical base) (p_includeHistorical options))
            (default (limit base) (p_limit options))
            (default (offset base) (p_offset options))
            (default (abortSignal base) (p_abortSignal options)).

(** One call of [executorService.executeSearch]; the corpus and the
    categories are passed through untouched and left out. *)
Record ExecutorCall := mkCall {
  e_query : string;
  e_filters : list SearchFilter;
  e_options : SearchOptions;
}.

Inductive Direction := up | down.

Section Service.

Context {Story : Type}.
Variable title : Story -> option string.
Variable toLowerCase : string -> string.
(** [DEFAULT_SEARCH_LIMIT] of [types.ts]. *)
Variable DEFAULT_SEARCH_LIMIT : Z.
(** [features.historicalSearch] of [$lib/config/features]. *)
Variable historicalSearch : bool.
(** [filterService.parseInput], for the catalog in force. *)
Variable parseInput : string -> string * list SearchFilter.
Variable chipText : string -> string -> string.
(** Whether the executor in use rejects, rather than resolves, a remote
    fetch whose signal has been aborted. The remote source is required to;
    a test double need not. *)
Variable honoursAbort : bool.

#[local] Abbreviation Result := (SearchResult Story).
#[local] Abbreviation State := (SearchState Story).

(** The service object: its [state], the [abortController] reference
    into the heap of controllers ever created ([controllers !! c] is the
    [signal.aborted] flag of controller [c], shared with the fetches that
    were handed its signal), the [requestId] counter and the chip
    service. *)
Record Service := mkService {
  state : State;
  abortController : option nat;
  controllers : list bool;
  requestId : Z;
  chipService : Chip.ChipService;
}.

(** Field updates of [this.state]. *)
Definition set_query v (st : State) : State :=
  mkState v (filters st) (results st) (isLoading st) (isLoadingMore st) (hasMore st)
          (selectedIndex st) (totalCount st) (currentOffset st) (allHistoricalResults st).
Definition set_filters v (st : State) : State :=
  mkState (query st) v (results st) (isLoading st) (isLoadingMore st) (hasMore st)
          (selectedIndex st) (totalCount st) (currentOffset st) (allHistoricalResults st).
Definition set_results v (st : State) : State :=
  mkState (query st) (filters st) v (isLoading st) (isLoadingMore st) (hasMore st)
          (selectedIndex st) (totalCount st) (currentOffset st) (allHistoricalResults st).
Definition set_isLoading v (st : State) : State :=
  mkState (query st) (filters st) (results st) v (isLoadingMore st) (hasMore st)
          (selectedIndex st) (totalCount st) (currentOffset st) (allHistoricalResults st).
Definition set_isLoadingMore v (st : State) : State :=
  mkState (query st) (filters st) (results st) (isLoading st) v (hasMore st)
          (selectedIndex st) (totalCount st) (currentOffset st) (allHistoricalResults st).
Definition set_hasMore v (st : State) : State :=
  mkState (query st) (filters st) (results st) (isLoading st) (isLoadingMore st) v
          (selectedIndex st) (totalCount st) (currentOffset st) (allHistoricalResults st).
Definition set_selectedIndex v (st : State) : State :=
  mkState (query st) (filters st) (results st) (isLoading st) (isLoadingMore st) (hasMore st)
          v (totalCount st) (currentOffset st) (allHistoricalResults st).
Definition set_totalCount v (st : State) : State :=
  mkState (query st) (filters st) (results st) (isLoading st) (isLoadingMore st) (hasMore st)
          (selectedIndex st) v (currentOffset st) (allHistoricalResults st).
Definition set_currentOffset v (st : State) : State :=
  mkState (query st) (filters st) (results st) (isLoading st) (isLoadingMore st) (hasMore st)
          (selectedIndex st) (totalCount st) v (allHistoricalResults st).
Definition set_allHistoricalResults v (st : State) : State :=
  mkState (query st) (filters st) (results st) (isLoading st) (isLoadingMore st) (hasMore st)
          (selectedIndex st) (totalCount st) (currentOffset st) v.

Definition with_state (f : State -> State) (svc : Service) : Service :=
  mkService (f (state svc)) (abortController svc) (controllers svc) (requestId svc)
            (chipService svc).

Definition with_chipService (cs : Chip.ChipService) (svc : Service) : Service :=
  mkService (state svc) (abortController svc) (controllers svc) (requestId svc) cs.

(** Lines 13-24 and 62-73. *)
Definition initialState : State :=
  mkState EmptyString [] [] false false false 0 0 0 [].

(** The service right after construction and [initialize(element)]. *)
Definition newService (element : option (list Chip.Node)) : Service :=
  mkService initialState None [] 0 (Chip.mkChipService element []).

(** [cancelActiveSearch] (lines 406-413). *)
Definition cancelActiveSearch (svc : Service) : Service :=
  let heap :=
    match abortController svc with
    | Some c =>
        if bool_decide (controllers svc !! c = Some false)
        then <[c := true]> (controllers svc)
        else controllers svc
    | None => controllers svc
    end in
  mkService (set_isLoading false (state svc)) None heap (requestId svc) (chipService svc).

(** [clear] (lines 59-76). *)
Definition clear (svc : Service) : Service :=
  let svc := cancelActiveSearch svc in
  mkService initialState (abortController svc) (controllers svc) (requestId svc)
            (Chip.clear (chipService svc)).

(** [destroy] (lines 442-444). *)
Definition destroy (svc : Service) : Service := cancelActiveSearch svc.

(** [updateFromInput] (lines 81-109), its effect on the service; the
    returned context and suggestions do not touch it. *)
Definition updateFromInput (inputText : string) (svc : Service) : Service :=
  let parsed := parseInput inputText in
  with_state (fun st => set_filters (snd parsed) (set_query (fst parsed) st)) svc.

(** [applyFilterSuggestion] (lines 114-131). *)
Definition applyFilterSuggestion (suggestion : FilterSuggestion) (context : FilterContext)
    (svc : Service) : Service * bool :=
  let '(cs, success) := Chip.applyFilterSuggestion chipText suggestion context (chipService svc) in
  let svc := with_chipService cs svc in
  if success then
    let newText := Chip.getText cs in
    let parsed := parseInput newText in
    let applied := Chip.getAppliedFilters cs in
    (with_state (fun st =>
                   set_filters (match applied with [] => snd parsed | _ => applied end)
                               (set_query (fst parsed) st)) svc, true)
  else (svc, false).

(** The template string of line 143. *)
Definition filterTextOf (f : SearchFilter) : string :=
  type f +:+ ":" +:+
  (if JS.includes_space (value f) then Chip.dquote +:+ value f +:+ Chip.dquote else value f).

(** [handleChipDeletion] (lines 136-156). *)
Definition handleChipDeletion (selection : option Chip.Range) (svc : Service)
    : Service * bool :=
  let '(cs, result) := Chip.handleBackspaceChipDeletion selection (chipService svc) in
  let svc := with_chipService cs svc in
  if Chip.deleted result then
    let svc :=
      if JS.truthy (Chip.filterText result) then
        with_state (fun st =>
          set_filters
            (List.filter (fun f => negb (bool_decide (Some (filterTextOf f) = Chip.filterText result)))
                         (filters st)) st) svc
      else svc in
    let newText := Chip.getText cs in
    (updateFromInput newText svc, true)
  else (svc, false).

(** *** executeSearch (lines 161-318) *)

(** What the synchronous prefix of [executeSearch] leaves behind: either
    the early return of lines 171-175 with the returned list, or a
    generation in flight with its captured [currentRequestId], the local
    executor call and, when eligible, the historical one. *)
Inductive Started :=
| Returned (returned : list Result)
| InFlight (currentRequestId : Z) (localCall : ExecutorCall)
           (historicalCall : option ExecutorCall).

(** Line 171. *)
Definition nothingToSearch (st : State) : bool :=
  negb (JS.truthy_string (query st)) && negb (existsb isValid (filters st)).

(** Lines 231-233. *)
Definition canSearchHistorical (st : State) : bool :=
  historicalSearch
  && ((3 <=? String.length (query st))%nat || (0 <? List.length (filters st))%nat).

Definition executeSearch (options : PartialOptions) (svc : Service) : Service * Started :=
  if nothingToSearch (state svc) then
    (with_state (fun st => set_hasMore false (set_results [] st)) svc, Returned [])
  else
    let svc := cancelActiveSearch svc in
    (* this.abortController = new AbortController() *)
    let c := List.length (controllers svc) in
    let st :=
      set_allHistoricalResults []
        (set_currentOffset 0 (set_isLoading true (state svc))) in
    let currentRequestId := requestId svc + 1 in
    let svc := mkService st (Some c) (controllers svc ++ [false]) currentRequestId
                         (chipService svc) in
    let searchOptions :=
      spread (mkOptions true true DEFAULT_SEARCH_LIMIT 0 (Some c)) options in
    let call (l h : bool) :=
      mkCall (query st) (filters st)
             (mkOptions l h (limit searchOptions) (offset searchOptions)
                        (abortSignal searchOptions)) in
    let historicalCall :=
      if includeHistorical searchOptions && canSearchHistorical st
      then Some (call false true) else None in
    (svc, InFlight currentRequestId (call true false) historicalCall).

(** The [then] handler of the local promise (lines 208-222). *)
Definition onLocalResolved (currentRequestId : Z) (localResults' : ExecutorResult Story)
    (svc : Service) : Service :=
  if bool_decide (currentRequestId = requestId svc) then
    with_state (fun st =>
      set_totalCount (localCount localResults')
        (set_isLoading false
           (set_selectedIndex 0
              (set_results (localResults localResults') st)))) svc
  else svc.

(** [!r.batchId] *)
Definition noBatchId (r : Result) : bool := negb (JS.truthy (batchId r)).

(** The [then] handler of the historical promise (lines 251-281). *)
Definition onHistoricalResolved (currentRequestId : Z)
    (historicalResults' : ExecutorResult Story) (svc : Service) : Service :=
  if bool_decide (currentRequestId = requestId svc) then
    with_state (fun st =>
      let st := set_allHistoricalResults (historicalResults historicalResults') st in
      let currentLocalResults := List.filter noBatchId (results st) in
      let combined :=
        combineResults title toLowerCase currentLocalResults (allHistoricalResults st) in
      set_currentOffset 0
        (set_totalCount (historicalCount historicalResults')
           (set_hasMore (r_hasMore historicalResults')
              (set_results combined st)))) svc
  else svc.

(** The [catch] handlers of lines 223-228 and 282-287 read the error and
    leave the service alone. *)
Definition onRejected (svc : Service) : Service := svc.

(** The continuation after the two [await]s (lines 305-306): the
    service and the value the call resolves with. *)
Definition onSettled (svc : Service) : Service * list Result :=
  let svc := with_state (set_isLoading false) svc in
  (svc, results (state svc)).

(** The [catch] block of lines 307-317, entered when an awaited promise
    rejected with something else than an abort error; the error is
    rethrown. *)
Definition onFailed (currentRequestId : Z) (svc : Service) : Service :=
  if bool_decide (currentRequestId = requestId svc)
  then with_state (set_isLoading false) svc
  else svc.

(** *** loadMoreResults (lines 323-377) *)

(** The prefix up to the [await]: [None] when the call returns at once,
    else the executor call issued; [nextOffset] is the [offset] of its
    options. *)
Definition loadMoreResults (svc : Service) : Service * option ExecutorCall :=
  if isLoadingMore (state svc) || negb (hasMore (state svc)) then (svc, None)
  else
    let svc := with_state (set_isLoadingMore true) svc in
    let nextOffset := currentOffset (state svc) + DEFAULT_SEARCH_LIMIT in
    (svc,
     Some (mkCall (query (state svc)) (filters (state svc))
                  (mkOptions false true DEFAULT_SEARCH_LIMIT nextOffset
                             (abortController svc)))).

(** The rest of the [try] block once the fetch resolved (lines
    350-371), followed by [finally]. *)
Definition onMoreResolved (nextOffset : Z) (moreResults : ExecutorResult Story)
    (svc : Service) : Service :=
  with_state (fun st =>
    let st :=
      set_allHistoricalResults
        (allHistoricalResults st ++ historicalResults moreResults) st in
    let st := set_results (results st ++ historicalResults moreResults) st in
    let st := set_currentOffset nextOffset st in
    let st := set_hasMore (r_hasMore moreResults) st in
    let st := set_totalCount (historicalCount moreResults) st in
    set_isLoadingMore false st) svc.

(** The [catch] block when the fetch threw (line 373), followed by
    [finally]. *)
Definition onMoreFailed (svc : Service) : Service :=
  with_state (set_isLoadingMore false) svc.

(** *** Selection (lines 418-437) *)

Definition navigateSelection (direction : Direction) (svc : Service) : Service :=
  let n := Z.of_nat (List.length (results (state svc))) in
  if n =? 0 then svc
  else
    match direction with
    | down =>
        with_state (fun st => set_selectedIndex (Z.rem (selectedIndex st + 1) n) st) svc
    | up =>
        with_state (fun st =>
          set_selectedIndex
            (if selectedIndex st =? 0 then n - 1 else selectedIndex st - 1) st) svc
    end.

(** [this.state.results[i]]: [undefined] off the array. *)
Definition at_index (l : list Result) (i : Z) : option Result :=
  if i <? 0 then None else l !! Z.to_nat i.

(** [getSelectedResult]: a result object is truthy, so [|| null] only
    turns [undefined] into [null]. *)
Definition getSelectedResult (svc : Service) : option Result :=
  at_index (results (state svc)) (selectedIndex (state svc)).

(** *** Runs of the service

    A configuration is the service together with the promises its calls
    have left open. Each generation started by [executeSearch] has its
    local promise, its historical promise when one was started, and the
    suspended call itself; [loadMoreResults] calls wait on their fetch. *)

Inductive Promise :=
| Open (call : ExecutorCall)
| Fulfilled
| RejectedAbort
| RejectedError.

Record Generation := mkGeneration {
  g_requestId : Z;
  g_local : Promise;
  g_historical : option Promise;
  g_awaiting : bool;
}.

Record Config := mkConfig {
  service : Service;
  generations : list Generation;
  moreFetches : list ExecutorCall;
}.

Inductive Event :=
| CallUpdateFromInput (inputText : string)
| CallApplyFilterSuggestion (suggestion : FilterSuggestion) (context : FilterContext)
| CallHandleChipDeletion (selection : option Chip.Range)
| CallExecuteSearch (options : PartialOptions)
| CallLoadMoreResults
| CallNavigateSelection (direction : Direction)
| CallClear
| CallDestroy
| LocalResolves (g : nat) (r : ExecutorResult Story)
| LocalRejects (g : nat) (abortError : bool)
| HistoricalResolves (g : nat) (r : ExecutorResult Story)
| HistoricalRejects (g : nat) (abortError : bool)
| SearchResumes (g : nat)
| MoreResolves (m : nat) (r : ExecutorResult Story)
| MoreRejects (m : nat).

Definition is_open (p : Promise) : bool :=
  match p with Open _ => true | _ => false end.

(** Under [honoursAbort], a remote fetch handed a signal that has been
    aborted does not resolve with a result. *)
Definition signal_live (heap : list bool) (call : ExecutorCall) : bool :=
  negb honoursAbort ||
  match abortSignal (e_options call) with
  | Some c => negb (bool_decide (heap !! c = Some true))
  | None => true
  end.

Definition rejection (abortError : bool) : Promise :=
  if abortError then RejectedAbort else RejectedError.

Definition only_service (cfg : Config) (svc : Service) : Config :=
  mkConfig svc (generations cfg) (moreFetches cfg).

(** One event of a run; [None] when the event cannot happen in the
    configuration (a promise settles once, a call resumes after the
    promise it awaits). *)
Definition step (ev : Event) (cfg : Config) : option Config :=
  let svc := service cfg in
  match ev with
  | CallUpdateFromInput text => Some (only_service cfg (updateFromInput text svc))
  | CallApplyFilterSuggestion s c =>
      Some (only_service cfg (fst (applyFilterSuggestion s c svc)))
  | CallHandleChipDeletion sel =>
      Some (only_service cfg (fst (handleChipDeletion sel svc)))
  | CallExecuteSearch options =>
      match executeSearch options svc with
      | (svc', Returned _) => Some (only_service cfg svc')
      | (svc', InFlight rid localCall historicalCall) =>
          Some (mkConfig svc'
                  (generations cfg
                   ++ [mkGeneration rid (Open localCall) (Open <$> historicalCall) true])
                  (moreFetches cfg))
      end
  | CallLoadMoreResults =>
      match loadMoreResults svc with
      | (svc', None) => Some (only_service cfg svc')
      | (svc', Some call) =>
          Some (mkConfig svc' (generations cfg) (moreFetches cfg ++ [call]))
      end
  | CallNavigateSelection d => Some (only_service cfg (navigateSelection d svc))
  | CallClear => Some (only_service cfg (clear svc))
  | CallDestroy => Some (only_service cfg (destroy svc))
  | LocalResolves g r =>
      gen ← generations cfg !! g;
      if is_open (g_local gen) then
        Some (mkConfig (onLocalResolved (g_requestId gen) r svc)
                (<[g := mkGeneration (g_requestId gen) Fulfilled (g_historical gen)
                                     (g_awaiting gen)]> (generations cfg))
                (moreFetches cfg))
      else None
  | LocalRejects g abortError =>
      gen ← generations cfg !! g;
      if is_open (g_local gen) then
        Some (mkConfig (onRejected svc)
                (<[g := mkGeneration (g_requestId gen) (rejection abortError)
                                     (g_historical gen) (g_awaiting gen)]> (generations cfg))
                (moreFetches cfg))
      else None
  | HistoricalResolves g r =>
      gen ← generations cfg !! g;
      match g_historical gen with
      | Some (Open call) =>
          if signal_live (controllers svc) call then
            Some (mkConfig (onHistoricalResolved (g_requestId gen) r svc)
                    (<[g := mkGeneration (g_requestId gen) (g_local gen) (Some Fulfilled)
                                         (g_awaiting gen)]> (generations cfg))
                    (moreFetches cfg))
          else None
      | _ => None
      end
  | HistoricalRejects g abortError =>
      gen ← generations cfg !! g;
      match g_historical gen with
      | Some (Open _) =>
          Some (mkConfig (onRejected svc)
                  (<[g := mkGeneration (g_requestId gen) (g_local gen)
                                       (Some (rejection abortError))
                                       (g_awaiting gen)]> (generations cfg))
                  (moreFetches cfg))
      | _ => None
      end
  | SearchResumes g =>
      gen ← generations cfg !! g;
      let finished svc' :=
        Some (mkConfig svc'
                (<[g := mkGeneration (g_requestId gen) (g_local gen) (g_historical gen)
                                     false]> (generations cfg))
                (moreFetches cfg)) in
      if g_awaiting gen then
        match g_local gen, g_historical gen with
        | Open _, _ => None
        | RejectedError, _ => finished (onFailed (g_requestId gen) svc)
        | _, Some (Open _) => None
        | _, Some RejectedError => finished (onFailed (g_requestId gen) svc)
        | _, _ => finished (fst (onSettled svc))
        end
      else None
  | MoreResolves m r =>
      call ← moreFetches cfg !! m;
      if signal_live (controllers svc) call then
        Some (mkConfig (onMoreResolved (offset (e_options call)) r svc)
                (generations cfg) (delete m (moreFetches cfg)))
      else None
  | MoreRejects m =>
      call ← moreFetches cfg !! m;
      Some (mkConfig (onMoreFailed svc) (generations cfg) (delete m (moreFetches cfg)))
  end.

Fixpoint run (events : list Event) (cfg : Config) : option Config :=
  match events with
  | [] => Some cfg
  | ev :: rest => cfg' ← step ev cfg; run rest cfg'
  end.

Definition initialConfig (element : option (list Chip.Node)) : Config :=
  mkConfig (newService element) [] [].

Definition reachable (cfg : Config) : Prop :=
  exists element events, run events (initialConfig element) = Some cfg.

End Service.

(** ** The claims about merging, in the words of the specification *)

Section CombineSpec.

Context {Story : Type}.
Variable title : Story -> option string.
Variable toLowerCase : string -> string.

(** A historical result is kept when its lower-cased title equals the
    lower-cased title of no result emitted before it. *)
Definition freshTitle (emitted : list (SearchResult Story)) (h : SearchResult Story) : bool :=
  negb (bool_decide (lowerTitle title toLowerCase h ∈ lowerTitle title toLowerCase <$> emitted)).

(** The merge as the deduplication sentence words it: all local results,
    then every historical result whose title is fresh. *)
Definition combineAsClaimed (localResults historicalResults : list (SearchResult Story))
    : list (SearchResult Story) :=
  foldl (fun emitted h => if freshTitle emitted h then emitted ++ [h] else emitted)
        localResults historicalResults.

(** The same with the guard of line 394: the lower-cased title must also
    be a non-empty string. *)
Definition combineGuarded (localResults historicalResults : list (SearchResult Story))
    : list (SearchResult Story) :=
  foldl (fun emitted h =>
           if JS.truthy (lowerTitle title toLowerCase h) && freshTitle emitted h
           then emitted ++ [h] else emitted)
        localResults historicalResults.

(** A title that is null, undefined or the empty string. *)
Definition blankTitle (r : SearchResult Story) : Prop :=
  title (story r) = None \/ title (story r) = Some EmptyString.

End CombineSpec.

(** ** The claims about generations and offsets, as stated *)

Section ServiceSpec.

Context {Story : Type}.

(** The call cancelled the controller that was in flight and moved to the
    next generation id. *)
Definition cancels_and_increments (before after : @Service Story) : Prop :=
  requestId after = requestId before + 1
  /\ forall c, abortController before = Some c -> controllers after !! c = Some true.

(** [selectedIndex] is a valid index into [results], or 0 when [results]
    is empty. *)
Definition selection_valid (st : SearchState Story) : Prop :=
  match results st with
  | [] => selectedIndex st = 0
  | _ => 0 <= selectedIndex st < Z.of_nat (List.length (results st))
  end.

Definition starts_search (ev : @Event Story) : bool :=
  match ev with CallExecuteSearch _ => true | _ => false end.

Definition more_resolves (ev : @Event Story) : bool :=
  match ev with MoreResolves _ _ => true | _ => false end.

(** The events that put [currentOffset] back to 0 in the code. *)
Definition resets_offset (ev : @Event Story) : bool :=
  match ev with
  | CallExecuteSearch _ | HistoricalResolves _ _ | CallClear => true
  | _ => false
  end.

(** The generations started so far carry ids up to the counter of the
    service, and every generation but the last carries a smaller one. *)
Definition generations_ordered (cfg : @Config Story) : Prop :=
  forall g gen,
    generations cfg !! g = Some gen ->
    g_requestId gen <= requestId (service cfg)
    /\ ((S g < List.length (generations cfg))%nat ->
        g_requestId gen < requestId (service cfg)).

(** Two states show the same listing: same results, paging flags, count,
    accumulated pages and selection. *)
Definition same_listing (a b : SearchState Story) : Prop :=
  results a = results b
  /\ hasMore a = hasMore b
  /\ totalCount a = totalCount b
  /\ allHistoricalResults a = allHistoricalResults b
  /\ selectedIndex a = selectedIndex b.

End ServiceSpec.

Section OffsetSpec.

Context {Story : Type}.
Variable title : Story -> option string.
Variable toLowerCase : string -> string.
Variable DEFAULT_SEARCH_LIMIT : Z.
Variable historicalSearch : bool.
Variable parseInput : string -> string * list SearchFilter.
Variable chipText : string -> string -> string.
Variable honoursAbort : bool.

(** The offset sentence as stated: along every run, an event changes
    [currentOffset] only by resetting it to 0 when it starts a search, or
    by advancing it by the page size when a page fetch resolved. *)
Definition offset_changes_as_claimed : Prop :=
  forall (cfg cfg' : @Config Story) (ev : Event),
    reachable title toLowerCase DEFAULT_SEARCH_LIMIT historicalSearch parseInput chipText
              honoursAbort cfg ->
    step title toLowerCase DEFAULT_SEARCH_LIMIT historicalSearch parseInput chipText
         honoursAbort ev cfg = Some cfg' ->
    currentOffset (state (service cfg')) <> currentOffset (state (service cfg)) ->
    (starts_search ev = true /\ currentOffset (state (service cfg')) = 0)
    \/ (more_resolves ev = true
        /\ currentOffset (state (service cfg'))
           = currentOffset (state (service cfg)) + DEFAULT_SEARCH_LIMIT).

End OffsetSpec.

(** The token sentence as stated: the value is quoted exactly when it
    contains a whitespace character. *)
Definition token_as_claimed (ctype v : string) : string :=
  ctype +:+ ":" +:+
  (if JS.contains_whitespace v then Chip.dquote +:+ v +:+ Chip.dquote else v).

(** The chips among the children of the element. *)
Definition chip_tokens (nodes : list Chip.Node) : list string :=
  omap (fun node => match node with Chip.FilterChip f _ _ => Some f | _ => None end) nodes.

(** ** Sample instance and inputs *)

Module Sample.

Record Item := mkItem {
  item_title : option string;
  item_id : nat;
}.

Definition limit : Z := 20.

(** A parser for text without filter syntax: the query is the text. *)
Definition parse (text : string) : string * list SearchFilter := (text, []).

Definition chipText (ctype displayValue : string) : string :=
  ctype +:+ ":" +:+ displayValue.

Definition local (t : string) (n : nat) : SearchResult Item :=
  mkResult (mkItem (Some t) n) None.

Definition historical (t : string) (n : nat) : SearchResult Item :=
  mkResult (mkItem (Some t) n) (Some "batch-1").

Definition untitled (n : nat) : SearchResult Item :=
  mkResult (mkItem None n) (Some "batch-1").

Definition localReply (rs : list (SearchResult Item)) : ExecutorResult Item :=
  mkExecutorResult rs (Z.of_nat (List.length rs)) [] 0 false.

Definition historicalReply (rs : list (SearchResult Item)) (total : Z) (more : bool)
    : ExecutorResult Item :=
  mkExecutorResult [] 0 rs total more.

Definition noOptions : PartialOptions := mkPartial None None None None None.

Definition fiveLocal : list (SearchResult Item) :=
  [local "alpha one" 1; local "alpha two" 2; local "alpha three" 3;
   local "alpha four" 4; local "alpha five" 5].

(** A TAB between two letters. *)
Definition tabbed : string := String "a" (String "009" (String "b" EmptyString)).

Abbreviation strictStep := (@step Item item_title JS.lower limit true parse chipText true).
Abbreviation strictRun := (@run Item item_title JS.lower limit true parse chipText true).
Abbreviation start := (@initialConfig Item (Some [])).

(** The same with an executor that ignores the abort signal. *)
Abbreviation laxStep := (@step Item item_title JS.lower limit true parse chipText false).
Abbreviation laxRun := (@run Item item_title JS.lower limit true parse chipText false).

Definition typed (text : string) : @Event Item := CallUpdateFromInput text.
Definition searched : @Event Item := CallExecuteSearch noOptions.

(** Generation 1 and generation 2 are started back to back and generation
    2 completes. *)
Definition twoGenerations : list (@Event Item) :=
  [typed "abc"; searched; searched;
   LocalResolves 1 (localReply [local "abc now" 1]);
   HistoricalResolves 1 (historicalReply [historical "abc then" 2] 1 false)].

(** "abc" is searched and both phases of generation 1 complete, with more
    to come. *)
Definition firstPage : list (@Event Item) :=
  [typed "abc"; searched;
   LocalResolves 0 (localReply [local "abc now" 1]);
   HistoricalResolves 0 (historicalReply [historical "abc then" 2] 50 true);
   SearchResumes 0].

(** Then the second page is loaded. *)
Definition secondPage : list (@Event Item) :=
  firstPage
  ++ [CallLoadMoreResults;
      MoreResolves 0 (historicalReply [historical "abc older" 3] 50 true)].

(** Five local results come in, the selection moves down three times, the
    input is emptied and searched again. *)
Definition emptiedAfterSelection : list (@Event Item) :=
  [typed "ab"; searched;
   LocalResolves 0 (localReply fiveLocal);
   SearchResumes 0;
   CallNavigateSelection down; CallNavigateSelection down; CallNavigateSelection down;
   typed EmptyString; searched].

(** Generation 1 and generation 2 are started back to back; the local
    fetch of generation 1 resolves and its historical fetch, whose signal
    generation 2 aborted, rejects with an abort error. The call of
    generation 1 can now resume after its awaits. *)
Definition supersededSettles : list (@Event Item) :=
  [typed "abc"; searched; searched;
   LocalResolves 0 (localReply [local "abc now" 1]);
   HistoricalRejects 0 true].

(** Generation 1 is in flight, the input is emptied and searched again. *)
Definition emptiedInFlight : list (@Event Item) :=
  [typed "abc"; searched; typed EmptyString; searched].

(** Generation 1 is in flight and the search is cleared. *)
Definition clearedInFlight : list (@Event Item) :=
  [typed "abc"; searched; CallClear].

(** The first page is listed and the next one has been asked for. *)
Definition pageRequested : list (@Event Item) :=
  firstPage ++ [CallLoadMoreResults].

(** A second search is started on the listed first page; one more page
    is loaded while it is in flight, a further one is asked for, and the
    historical completion of the second search arrives before that
    page. *)
Definition resetBeforePage : list (@Event Item) :=
  firstPage
  ++ [searched; CallLoadMoreResults;
      MoreResolves 0 (historicalReply [historical "abc older" 3] 50 true);
      CallLoadMoreResults;
      HistoricalResolves 1 (historicalReply [historical "abc then" 2] 50 true)].

End Sample.

(** ** The rest of the chip service: mounting, text and caret *)

Module Caret.

(** [setElement] (lines 7-13), as [initialize] of the search service
    calls it. *)
Definition setElement (element : option (list Chip.Node)) (cs : Chip.ChipService)
    : Chip.ChipService :=
  Chip.mkChipService element (Chip.appliedFilters cs).

(** [setText] (lines 377-380): assigning [textContent] leaves one text
    node, or none for the empty string. *)
Definition setText (text : string) (cs : Chip.ChipService) : Chip.ChipService :=
  match Chip.element cs with
  | None => cs
  | Some _ => Chip.mkChipService (Some (Chip.text_if_truthy text)) (Chip.appliedFilters cs)
  end.

(** The loop of [setCursorPosition] (lines 284-294): only text nodes
    count. *)
Fixpoint find_text (nodes : list Chip.Node) (index currentOffset offset : nat)
    : option Chip.Range :=
  match nodes with
  | [] => None
  | Chip.TextNode s :: rest =>
      if (offset <=? currentOffset + String.length s)%nat
      then Some (Chip.mkRange true (offset - currentOffset) (Chip.Within [index]))
      else find_text rest (S index) (currentOffset + String.length s) offset
  | _ :: rest => find_text rest (S index) currentOffset offset
  end.

(** [setCursorPosition] (lines 272-302): the selection it leaves. *)
Definition setCursorPosition (offset : nat) (cs : Chip.ChipService)
    (selection : option Chip.Range) : option Chip.Range :=
  match Chip.element cs with
  | None => selection
  | Some nodes =>
      match find_text nodes 0 0 offset with
      | Some range => Some range
      | None => selection
      end
  end.

(** [setCursorAfterChip] (lines 307-322); the chip is named by its index
    among the children. *)
Definition setCursorAfterChip (chip : nat) (cs : Chip.ChipService)
    (selection : option Chip.Range) : option Chip.Range :=
  match Chip.element cs with
  | None => selection
  | Some nodes =>
      match nodes !! S chip with
      | Some (Chip.TextNode _) => Some (Chip.mkRange true 0 (Chip.Within [S chip]))
      | _ => selection
      end
  end.

(** The child of the element that is the start container or contains
    it (lines 338 and 341), if there is one. *)
Definition holder (container : Chip.Container) : option nat :=
  match container with
  | Chip.Within (i :: _) => Some i
  | _ => None
  end.

(** The loop of [getCursorPosition] (lines 337-352). *)
Fixpoint walk_to (nodes : list Chip.Node) (index : nat) (container : option nat)
    (startOffset offset : nat) : nat :=
  match nodes with
  | [] => offset
  | node :: rest =>
      if bool_decide (container = Some index) then (offset + startOffset)%nat
      else
        walk_to rest (S index) container startOffset
          (offset + match node with
                    | Chip.TextNode s => String.length s
                    | Chip.FilterChip f _ _ => String.length f
                    | Chip.OtherElement _ => 0
                    end)%nat
  end.

(** [getCursorPosition] (lines 327-355). *)
Definition getCursorPosition (cs : Chip.ChipService) (selection : option Chip.Range) : nat :=
  match Chip.element cs, selection with
  | Some nodes, Some range =>
      walk_to nodes 0 (holder (Chip.startContainer range)) (Chip.startOffset range) 0
  | _, _ => 0%nat
  end.

(** The selection [applyFilterSuggestion] leaves behind: the caret is put
    after the inserted text (line 136) or after the chip (line 178). *)
Definition selectionAfterApply (chipText : string -> string -> string)
    (suggestion : FilterSuggestion) (context : FilterContext) (cs : Chip.ChipService)
    (selection : option Chip.Range) : option Chip.Range :=
  match Chip.element cs with
  | None => selection
  | Some nodes =>
      let beforeFilter :=
        JS.substring_to (startIndex context) (Chip.elementTextContent chipText nodes) in
      let cs' := fst (Chip.applyFilterSuggestion chipText suggestion context cs) in
      if isFilterType suggestion
      then setCursorPosition
             (String.length beforeFilter + String.length (s_value suggestion)) cs' selection
      else setCursorAfterChip (List.length (Chip.text_if_truthy beforeFilter)) cs' selection
  end.

(** What one child contributes to [getText], and the canonical text of
    a list of children written as a right fold. *)
Definition canonical_piece (node : Chip.Node) : string :=
  match node with
  | Chip.TextNode s => s
  | Chip.FilterChip f _ _ => f
  | Chip.OtherElement _ => Chip.getTextFromNode node
  end.

Definition canonical (nodes : list Chip.Node) : string :=
  foldr (fun node text => canonical_piece node +:+ text) EmptyString nodes.

(** The same for the loop of [getTextFromNode], which skips chips. *)
Definition inner_piece (child : Chip.Node) : string :=
  match child with
  | Chip.TextNode s => s
  | Chip.FilterChip _ _ _ => EmptyString
  | Chip.OtherElement _ => Chip.getTextFromNode child
  end.

Definition inner_text (children : list Chip.Node) : string :=
  foldr (fun child text => inner_piece child +:+ text) EmptyString children.

(** The keys of the applied-filters map. *)
Definition keys (m : list (string * SearchFilter)) : list string := fst <$> m.

(** The children are text nodes only. *)
Definition text_only (nodes : list Chip.Node) : Prop :=
  Forall (fun node => match node with Chip.TextNode _ => True | _ => False end) nodes.

End Caret.

(** [n] presses of the down key. *)
Fixpoint press_down {Story : Type} (n : nat) (svc : @Service Story) : @Service Story :=
  match n with
  | O => svc
  | S n' => press_down n' (navigateSelection down svc)
  end.

(** ** Invariants of the runs *)

Section RunInvariants.

Context {Story : Type}.
Variable DEFAULT_SEARCH_LIMIT : Z.

(** The controller the service holds exists and is not aborted. *)
Definition controller_live (svc : @Service Story) : Prop :=
  forall c, abortController svc = Some c -> controllers svc !! c = Some false.

(** The later heap has every controller of the earlier one, and those
    that were aborted still are. *)
Definition heap_extends (before after : list bool) : Prop :=
  (List.length before <= List.length after)%nat
  /\ forall c, before !! c = Some true -> after !! c = Some true.

(** The counter is the number of generations started, and generation [g]
    (counting from 0) carries id [g + 1]. *)
Definition generations_counted (cfg : @Config Story) : Prop :=
  requestId (service cfg) = Z.of_nat (List.length (generations cfg))
  /\ forall g gen, generations cfg !! g = Some gen -> g_requestId gen = Z.of_nat (S g).

(** [currentOffset] is a whole number of pages, and every page fetch in
    flight asks for a later page than the first. *)
Definition offsets_paged (cfg : @Config Story) : Prop :=
  (exists k : nat, currentOffset (state (service cfg)) = Z.of_nat k * DEFAULT_SEARCH_LIMIT)
  /\ forall call, call ∈ moreFetches cfg ->
       exists k : nat, offset (e_options call) = Z.of_nat (S k) * DEFAULT_SEARCH_LIMIT.

End RunInvariants.

(** ** More sample inputs *)

Module MoreSamples.

(** Five local results listed, the last one selected. *)
Definition listed : @Service Sample.Item :=
  mkService (mkState "alpha" [] Sample.fiveLocal false false false 4 5 0 [])
            None [] 1 (Chip.mkChipService None []).

(** One local and one historical result listed, more pages to come,
    generation 1 settled under controller 0. *)
Definition paging : @Service Sample.Item :=
  mkService (mkState "abc" []
               [Sample.local "abc now" 1; Sample.historical "abc then" 2]
               false false true 1 50 0 [Sample.historical "abc then" 2])
            (Some 0%nat) [false] 1 (Chip.mkChipService (Some []) []).

Definition secondPageReply : ExecutorResult Sample.Item :=
  Sample.historicalReply [Sample.historical "abc older" 3] 50 true.

(** "ai from:New" is in the input, and "New York" is accepted for the
    [from] filter under the caret. *)
Definition typedCity : Chip.ChipService :=
  Chip.mkChipService (Some [Chip.TextNode "ai from:New"]) [].
Definition citySuggestion : FilterSuggestion := mkSuggestion "New York" "New York" "City" false.
Definition cityContext : FilterContext := mkContext "from" 3 "from:New".

(** "ai cat" is in the input, and the filter name "category:" is accepted
    for the prefix under the caret. *)
Definition typedName : Chip.ChipService :=
  Chip.mkChipService (Some [Chip.TextNode "ai cat"]) [].
Definition nameSuggestion : FilterSuggestion :=
  mkSuggestion "category:" "category:" "Category" true.
Definition nameContext : FilterContext := mkContext "suggestion" 3 "cat".

Definition unmounted : Chip.ChipService :=
  Chip.mkChipService None [("from:bbc", mkFilter "from" "bbc" "BBC" true)].

Definition mountedService : @Service Sample.Item :=
  mkService (mkState "ai from:New" [] [] false false false 0 0 0 [])
            None [] 0 typedCity.

(** A chip and the text after it sit inside another element of the
    input, and the caret stands at the start of that text. *)
Definition nestedChip : Chip.ChipService :=
  Chip.mkChipService
    (Some [Chip.TextNode "ai ";
           Chip.OtherElement [Chip.FilterChip "from:bbc" "from" "BBC"; Chip.TextNode " news"]])
    [("from:bbc", mkFilter "from" "bbc" "BBC" true)].
Definition caretInNested : Chip.Range := Chip.mkRange true 0 (Chip.Within [1; 1]%nat).

(** The caret stands at the start of a text node outside the input, right
    after a chip for "from:bbc" there. *)
Definition caretElsewhere : Chip.Range :=
  Chip.mkRange true 0 (Chip.Elsewhere true (Some "from:bbc")).

End MoreSamples.

(** * Properties *)

(** ** Merging and deduplication *)

Section CombineProofs.

Context {Story : Type}.
Variable title : Story -> option string.
Variable toLowerCase : string -> string.

#[local] Abbreviation lowered := (lowerTitle title toLowerCase).
#[local] Abbreviation combine := (combineResults title toLowerCase).
#[local] Abbreviation guarded := (combineGuarded title toLowerCase).
#[local] Abbreviation fresh := (freshTitle title toLowerCase).

(** The set of the loop holds the lower-cased titles of what has been
    emitted, so the test against the set is the test against the list. *)
Lemma set_test_is_fresh (emitted : list (SearchResult Story)) (h : SearchResult Story) :
  negb (bool_decide (lowered h ∈ (list_to_set (lowered <$> emitted) : gset (option string))))
  = fresh emitted h.
Proof.
  unfold freshTitle. f_equal. apply bool_decide_ext, elem_of_list_to_set.
Qed.

Lemma set_after_push (emitted : list (SearchResult Story)) (h : SearchResult Story) :
  ({[ lowered h ]} ∪ list_to_set (lowered <$> emitted) : gset (option string))
  = list_to_set (lowered <$> (emitted ++ [h])).
Proof.
  rewrite fmap_app. cbn [fmap list_fmap]. rewrite list_to_set_snoc_L.
  apply (comm_L (∪)).
Qed.

Lemma combine_loop_guarded (historicalResults combined : list (SearchResult Story)) :
  combine_loop title toLowerCase historicalResults combined
    (list_to_set (lowered <$> combined))
  = guarded combined historicalResults.
Proof.
  revert combined.
  induction historicalResults as [|h rest IH]; intros combined; [reflexivity|].
  cbn [combine_loop]. unfold combineGuarded. cbn [foldl].
  rewrite set_test_is_fresh.
  destruct (JS.truthy (lowered h) && fresh combined h).
  - rewrite set_after_push. apply IH.
  - apply IH.
Qed.

Lemma combine_is_guarded (localResults historicalResults : list (SearchResult Story)) :
  combine localResults historicalResults = guarded localResults historicalResults.
Proof. apply combine_loop_guarded. Qed.

Lemma guarded_snoc (l h : list (SearchResult Story)) (x : SearchResult Story) :
  guarded l (h ++ [x])
  = if JS.truthy (lowered x) && fresh (guarded l h) x
    then guarded l h ++ [x] else guarded l h.
Proof. unfold combineGuarded. rewrite foldl_app. reflexivity. Qed.

(** The shape of the merge: the local list, then a subsequence of the
    historical list whose members have a truthy lower-cased title that no
    local result and no other member shares. *)
Lemma guarded_shape (h l : list (SearchResult Story)) :
  exists hs,
    guarded l h = l ++ hs
    /\ sublist hs h
    /\ Forall (fun r => JS.truthy (lowered r) = true) hs
    /\ (forall a b, a ∈ l -> b ∈ hs -> lowered a <> lowered b)
    /\ NoDup (lowered <$> hs).
Proof.
  revert l. induction h as [|x h IH]; intros l.
  - exists []. rewrite app_nil_r. repeat split; try constructor.
    intros a b _ Hb. inversion Hb.
  - unfold combineGuarded. cbn [foldl].
    destruct (JS.truthy (lowered x)) eqn:Ht; cbn [andb];
      [destruct (fresh l x) eqn:Hf|].
    + destruct (IH (l ++ [x])) as (hs & Heq & Hsub & Hall & Hne & Hnd).
      exists (x :: hs). unfold combineGuarded in Heq. rewrite Heq, <- app_assoc.
      repeat split; trivial.
      * by apply sublist_skip.
      * by constructor.
      * intros a b Ha Hb. apply elem_of_cons in Hb as [->|Hb].
        -- unfold freshTitle in Hf. apply negb_true_iff, bool_decide_eq_false in Hf.
           intros Heq'. apply Hf. rewrite <- Heq'. by apply list_elem_of_fmap_2.
        -- apply Hne; [apply elem_of_app; by left | done].
      * rewrite fmap_cons. constructor; [|done].
        intros Hin. apply list_elem_of_fmap in Hin as (b & Heq' & Hb).
        eapply (Hne x b); [apply elem_of_app; right; by apply list_elem_of_singleton | done | done].
    + destruct (IH l) as (hs & Heq & Hsub & Hall & Hne & Hnd).
      exists hs. repeat split; trivial. by apply sublist_cons.
    + destruct (IH l) as (hs & Heq & Hsub & Hall & Hne & Hnd).
      exists hs. repeat split; trivial. by apply sublist_cons.
Qed.

(** A historical result with a blank title changes nothing, wherever it
    stands. *)
Lemma guarded_skip_blank (l h1 h2 : list (SearchResult Story)) (r : SearchResult Story) :
  JS.truthy (lowered r) = false ->
  guarded l (h1 ++ r :: h2) = guarded l (h1 ++ h2).
Proof.
  intros Hr. unfold combineGuarded. rewrite !foldl_app. cbn [foldl].
  by rewrite Hr.
Qed.

Lemma blank_not_truthy (r : SearchResult Story) :
  toLowerCase EmptyString = EmptyString ->
  blankTitle title r -> JS.truthy (lowered r) = false.
Proof.
  intros Hlow [Hr|Hr]; unfold lowerTitle; rewrite Hr; cbn; [done|].
  by rewrite Hlow.
Qed.

Lemma truthy_not_blank (r : SearchResult Story) :
  toLowerCase EmptyString = EmptyString ->
  JS.truthy (lowered r) = true -> ~ blankTitle title r.
Proof.
  intros Hlow Ht Hb. by rewrite (blank_not_truthy r Hlow Hb) in Ht.
Qed.

(** C2, as amended. [combineResults] returns all local results first, in
    their order, followed by exactly those historical results, in source
    order, whose lower-cased title is a non-empty string and equals the
    lower-cased title of no result emitted earlier. So the emitted
    historical results are a subsequence of the historical list, none
    shares its lower-cased title with a local result, and no two of them
    share one. *)
Theorem combineResults_guarded_merge (localResults historicalResults : list (SearchResult Story)) :
  combine localResults [] = localResults
  /\ (forall h x,
        combine localResults (h ++ [x])
        = if JS.truthy (lowered x) && fresh (combine localResults h) x
          then combine localResults h ++ [x]
          else combine localResults h)
  /\ exists emitted,
       combine localResults historicalResults = localResults ++ emitted
       /\ sublist emitted historicalResults
       /\ (forall a b, a ∈ localResults -> b ∈ emitted -> lowered a <> lowered b)
       /\ NoDup (lowered <$> emitted).
Proof.
  split; [reflexivity|]. split.
  - intros h x. rewrite !combine_is_guarded. apply guarded_snoc.
  - destruct (guarded_shape historicalResults localResults)
      as (hs & Heq & Hsub & _ & Hne & Hnd).
    exists hs. rewrite combine_is_guarded. auto.
Qed.

(** C9. Whatever the two lists, the result is the local list, blank
    titles included, followed by historical results none of which has a
    null, undefined or empty title; and a historical result with such a
    title can be struck from the input without changing the result. *)
Theorem combineResults_drops_blank_historical
    (localResults historicalResults : list (SearchResult Story)) :
  toLowerCase EmptyString = EmptyString ->
  (exists emitted,
     combine localResults historicalResults = localResults ++ emitted
     /\ sublist emitted historicalResults
     /\ Forall (fun r => ~ blankTitle title r) emitted)
  /\ (forall h1 h2 r,
        blankTitle title r ->
        combine localResults (h1 ++ r :: h2) = combine localResults (h1 ++ h2)).
Proof.
  intros Hlow. split.
  - destruct (guarded_shape historicalResults localResults)
      as (hs & Heq & Hsub & Hall & _ & _).
    exists hs. rewrite combine_is_guarded. repeat split; trivial.
    eapply Forall_impl; [exact Hall|]. intros r Hr. by apply truthy_not_blank.
  - intros h1 h2 r Hr. rewrite !combine_is_guarded.
    apply guarded_skip_blank. by apply blank_not_truthy.
Qed.

End CombineProofs.

(** ** The service *)

Section ServiceProofs.

Context {Story : Type}.
Variable title : Story -> option string.
Variable toLowerCase : string -> string.
Variable DEFAULT_SEARCH_LIMIT : Z.
Variable historicalSearch : bool.
Variable parseInput : string -> string * list SearchFilter.
Variable chipText : string -> string -> string.
Variable honoursAbort : bool.

#[local] Abbreviation Svc := (@Service Story).
#[local] Abbreviation search := (@executeSearch Story DEFAULT_SEARCH_LIMIT historicalSearch).
#[local] Abbreviation more := (@loadMoreResults Story DEFAULT_SEARCH_LIMIT).
#[local] Abbreviation localDone := (@onLocalResolved Story).
#[local] Abbreviation historicalDone := (@onHistoricalResolved Story title toLowerCase).
#[local] Abbreviation stepS :=
  (@step Story title toLowerCase DEFAULT_SEARCH_LIMIT historicalSearch parseInput chipText
         honoursAbort).
#[local] Abbreviation runS :=
  (@run Story title toLowerCase DEFAULT_SEARCH_LIMIT historicalSearch parseInput chipText
        honoursAbort).

(** *** Handlers of a superseded generation *)

Lemma onLocalResolved_stale (rid : Z) (r : ExecutorResult Story) (svc : Svc) :
  rid <> requestId svc -> localDone rid r svc = svc.
Proof. intros H. unfold onLocalResolved. by rewrite bool_decide_eq_false_2. Qed.

Lemma onHistoricalResolved_stale (rid : Z) (r : ExecutorResult Story) (svc : Svc) :
  rid <> requestId svc -> historicalDone rid r svc = svc.
Proof. intros H. unfold onHistoricalResolved. by rewrite bool_decide_eq_false_2. Qed.

(** *** What each operation does to the generation counter *)

Lemma requestId_with_state f (svc : Svc) : requestId (with_state f svc) = requestId svc.
Proof. reflexivity. Qed.

Lemma requestId_onLocalResolved rid r (svc : Svc) :
  requestId (localDone rid r svc) = requestId svc.
Proof. unfold onLocalResolved. by case_bool_decide. Qed.

Lemma requestId_onHistoricalResolved rid r (svc : Svc) :
  requestId (historicalDone rid r svc) = requestId svc.
Proof. unfold onHistoricalResolved. by case_bool_decide. Qed.

Lemma requestId_onFailed rid (svc : Svc) : requestId (onFailed rid svc) = requestId svc.
Proof. unfold onFailed. by case_bool_decide. Qed.

Lemma requestId_applyFilterSuggestion s c (svc : Svc) :
  requestId (fst (applyFilterSuggestion parseInput chipText s c svc)) = requestId svc.
Proof.
  unfold applyFilterSuggestion.
  destruct (Chip.applyFilterSuggestion chipText s c (chipService svc)) as [cs []]; reflexivity.
Qed.

Lemma requestId_handleChipDeletion sel (svc : Svc) :
  requestId (fst (handleChipDeletion parseInput sel svc)) = requestId svc.
Proof.
  unfold handleChipDeletion.
  destruct (Chip.handleBackspaceChipDeletion sel (chipService svc)) as [cs res].
  destruct (Chip.deleted res); [|reflexivity].
  destruct (JS.truthy (Chip.filterText res)); reflexivity.
Qed.

Lemma requestId_navigateSelection d (svc : Svc) :
  requestId (navigateSelection d svc) = requestId svc.
Proof. unfold navigateSelection. destruct (_ =? 0), d; reflexivity. Qed.

Lemma requestId_loadMoreResults (svc : Svc) : requestId (fst (more svc)) = requestId svc.
Proof. unfold loadMoreResults. destruct (_ || _); reflexivity. Qed.

Lemma executeSearch_cases options (svc : Svc) :
  (nothingToSearch (state svc) = true
   /\ search options svc
      = (with_state (fun st => set_hasMore false (set_results [] st)) svc, Returned []))
  \/ (nothingToSearch (state svc) = false
      /\ exists svc' localCall historicalCall,
           search options svc = (svc', InFlight (requestId svc + 1) localCall historicalCall)
           /\ requestId svc' = requestId svc + 1
           /\ abortController svc' = Some (List.length (controllers svc))
           /\ controllers svc' = controllers (cancelActiveSearch svc) ++ [false]
           /\ currentOffset (state svc') = 0).
Proof.
  unfold executeSearch. destruct (nothingToSearch (state svc)); [left|right]; split; trivial.
  do 3 eexists. split; [reflexivity|]. cbn.
  repeat split. f_equal. unfold cancelActiveSearch; cbn.
  destruct (abortController svc); [case_bool_decide|]; by rewrite ?length_insert.
Qed.

(** One event either keeps the counter and the ids of the generations, or
    it is a search that starts a new generation under the next id. *)
Lemma step_generations ev (cfg cfg' : @Config Story) :
  stepS ev cfg = Some cfg' ->
  (requestId (service cfg') = requestId (service cfg)
   /\ g_requestId <$> generations cfg' = g_requestId <$> generations cfg)
  \/ (requestId (service cfg') = requestId (service cfg) + 1
      /\ exists gen, generations cfg' = generations cfg ++ [gen]
                     /\ g_requestId gen = requestId (service cfg')).
Proof.
  assert (Hins : forall g gen gen', generations cfg !! g = Some gen ->
            g_requestId gen' = g_requestId gen ->
            g_requestId <$> <[g := gen']> (generations cfg)
            = g_requestId <$> generations cfg).
  { intros g gen gen' Hg Heq. rewrite list_fmap_insert, Heq.
    apply list_insert_id. by rewrite list_lookup_fmap, Hg. }
  destruct ev; cbn [step]; intros Hstep.
  - inversion_clear Hstep. by left.
  - inversion_clear Hstep. left. split; [apply requestId_applyFilterSuggestion|done].
  - inversion_clear Hstep. left. split; [apply requestId_handleChipDeletion|done].
  - destruct (executeSearch_cases options (service cfg))
      as [[_ Heq]|[_ (svc' & lc & hc & Heq & Hid & _)]];
      rewrite Heq in Hstep; inversion_clear Hstep; cbn.
    + by left.
    + right. split; [done|]. eexists. split; [reflexivity|]. by cbn.
  - pose proof (requestId_loadMoreResults (service cfg)) as Hid.
    destruct (more (service cfg)) as [svc' [call|]]; inversion_clear Hstep; by left.
  - inversion_clear Hstep. left. split; [apply requestId_navigateSelection|done].
  - inversion_clear Hstep. by left.
  - inversion_clear Hstep. by left.
  - destruct (generations cfg !! g) as [gen|] eqn:Hg; [|done]. cbn in Hstep.
    destruct (is_open (g_local gen)); inversion_clear Hstep. left. cbn.
    split; [apply requestId_onLocalResolved|by eapply Hins].
  - destruct (generations cfg !! g) as [gen|] eqn:Hg; [|done]. cbn in Hstep.
    destruct (is_open (g_local gen)); inversion_clear Hstep. left. cbn.
    split; [done|by eapply Hins].
  - destruct (generations cfg !! g) as [gen|] eqn:Hg; [|done]. cbn in Hstep.
    destruct (g_historical gen) as [[call| | |]|]; try done.
    destruct (signal_live _ _ _); inversion_clear Hstep. left. cbn.
    split; [apply requestId_onHistoricalResolved|by eapply Hins].
  - destruct (generations cfg !! g) as [gen|] eqn:Hg; [|done]. cbn in Hstep.
    destruct (g_historical gen) as [[call| | |]|]; try done.
    inversion_clear Hstep. left. cbn. split; [done|by eapply Hins].
  - destruct (generations cfg !! g) as [gen|] eqn:Hg; [|done]. cbn in Hstep.
    destruct (g_awaiting gen); [|done].
    destruct (g_local gen), (g_historical gen) as [[| | |]|]; try done;
      inversion_clear Hstep; left; cbn;
      (split; [try apply requestId_onFailed; done|by eapply Hins]).
  - destruct (moreFetches cfg !! m) as [call|]; [|done]. cbn in Hstep.
    destruct (signal_live _ _ _); inversion_clear Hstep. by left.
  - destruct (moreFetches cfg !! m) as [call|]; [|done]. cbn in Hstep.
    inversion_clear Hstep. by left.
Qed.

Lemma step_generations_ordered ev (cfg cfg' : @Config Story) :
  stepS ev cfg = Some cfg' -> generations_ordered cfg -> generations_ordered cfg'.
Proof.
  intros Hstep Hord g gen Hg.
  destruct (step_generations ev cfg cfg' Hstep) as [[Hid Hids]|[Hid (new & Hgens & Hnew)]].
  - assert (Hlen : List.length (generations cfg') = List.length (generations cfg)).
    { by rewrite <- (length_fmap g_requestId), Hids, length_fmap. }
    assert (Hold : exists old, generations cfg !! g = Some old
                               /\ g_requestId old = g_requestId gen).
    { assert (H : (g_requestId <$> generations cfg) !! g = Some (g_requestId gen))
        by (by rewrite <- Hids, list_lookup_fmap, Hg).
      rewrite list_lookup_fmap in H.
      destruct (generations cfg !! g) as [old|]; [|done].
      exists old. split; [done|]. by inversion H. }
    destruct Hold as (old & Hold & Heq). destruct (Hord g old Hold) as [Hle Hlt].
    rewrite Hid, Hlen, <- Heq. by split.
  - rewrite Hgens in Hg |- *. rewrite length_app. cbn [List.length].
    apply lookup_app_Some in Hg as [Hg|[Hge Hg]].
    + destruct (Hord g gen Hg) as [Hle _]. split; lia.
    + apply list_lookup_singleton_Some in Hg as [Hz ->]. split; lia.
Qed.

Lemma run_generations_ordered events (cfg cfg' : @Config Story) :
  runS events cfg = Some cfg' -> generations_ordered cfg -> generations_ordered cfg'.
Proof.
  revert cfg. induction events as [|ev rest IH]; intros cfg Hrun Hord.
  - cbn in Hrun. by inversion Hrun; subst.
  - cbn [run] in Hrun. destruct (stepS ev cfg) as [mid|] eqn:Hstep; [|done].
    cbn in Hrun. eapply IH; [exact Hrun|]. by eapply step_generations_ordered.
Qed.

Lemma reachable_generations_ordered (cfg : @Config Story) :
  reachable title toLowerCase DEFAULT_SEARCH_LIMIT historicalSearch parseInput chipText
            honoursAbort cfg ->
  generations_ordered cfg.
Proof.
  intros (element & events & Hrun). eapply run_generations_ordered; [exact Hrun|].
  intros g gen Hg. inversion Hg.
Qed.

(** The continuation of [executeSearch] after its awaits clears
    [isLoading] and nothing else, whatever generation it belongs to. *)
Lemma onSettled_same_listing (svc : Svc) :
  same_listing (state (fst (onSettled svc))) (state svc).
Proof. by repeat split. Qed.

Lemma onFailed_same_listing rid (svc : Svc) :
  same_listing (state (onFailed rid svc)) (state svc).
Proof. unfold onFailed. case_bool_decide; by repeat split. Qed.

(** X30. A local or historical completion handler whose captured request
    id differs from the current one leaves the whole service, hence all
    of SearchState, as it is. Along every run, once a later generation
    has been started, the arrival of an earlier generation's local or
    historical response changes nothing of the service. When a call
    resumes after its awaits, results, hasMore, totalCount,
    allHistoricalResults and selectedIndex stay as they are; what it does
    to [isLoading] is not covered here. *)
Theorem stale_generation_suppressed :
  (forall (svc : Svc) rid r,
     rid <> requestId svc ->
     localDone rid r svc = svc /\ historicalDone rid r svc = svc)
  /\ (forall (cfg cfg' : @Config Story) g gen r,
        reachable title toLowerCase DEFAULT_SEARCH_LIMIT historicalSearch parseInput chipText
                  honoursAbort cfg ->
        generations cfg !! g = Some gen ->
        (S g < List.length (generations cfg))%nat ->
        stepS (LocalResolves g r) cfg = Some cfg'
        \/ stepS (HistoricalResolves g r) cfg = Some cfg' ->
        service cfg' = service cfg)
  /\ (forall (cfg cfg' : @Config Story) g,
        stepS (SearchResumes g) cfg = Some cfg' ->
        same_listing (state (service cfg')) (state (service cfg))).
Proof.
  split; [|split].
  - intros svc rid r Hne.
    split; [by apply onLocalResolved_stale|by apply onHistoricalResolved_stale].
  - intros cfg cfg' g gen r Hreach Hg Hlater Hstep.
    destruct (reachable_generations_ordered cfg Hreach g gen Hg) as [_ Hlt].
    specialize (Hlt Hlater).
    assert (Hne : g_requestId gen <> requestId (service cfg)) by lia.
    destruct Hstep as [Hstep|Hstep]; cbn [step] in Hstep; rewrite Hg in Hstep;
      cbn in Hstep.
    + destruct (is_open (g_local gen)); inversion_clear Hstep. cbn.
      by apply onLocalResolved_stale.
    + destruct (g_historical gen) as [[call| | |]|]; try done.
      destruct (signal_live _ _ _); inversion_clear Hstep. cbn.
      by apply onHistoricalResolved_stale.
  - intros cfg cfg' g Hstep. cbn [step] in Hstep.
    destruct (generations cfg !! g) as [gen|]; [|done]. cbn in Hstep.
    destruct (g_awaiting gen); [|done].
    destruct (g_local gen), (g_historical gen) as [[| | |]|]; try done;
      inversion_clear Hstep; cbn;
      first [apply onFailed_same_listing | apply onSettled_same_listing].
Qed.

(** *** The early return of executeSearch *)

(** C3. With an empty query and no filter, [executeSearch] returns the
    empty list from its synchronous prefix, starts no generation and
    issues no executor call, and leaves [isLoading] as it found it: false
    if it was false. *)
Theorem executeSearch_empty_query options (svc : Svc) :
  query (state svc) = EmptyString ->
  filters (state svc) = [] ->
  exists svc',
    search options svc = (svc', Returned [])
    /\ results (state svc') = []
    /\ isLoading (state svc') = isLoading (state svc)
    /\ (isLoading (state svc) = false -> isLoading (state svc') = false)
    /\ forall cfg : @Config Story,
         service cfg = svc ->
         stepS (CallExecuteSearch options) cfg
         = Some (mkConfig svc' (generations cfg) (moreFetches cfg)).
Proof.
  intros Hq Hf.
  assert (Hnothing : nothingToSearch (state svc) = true).
  { unfold nothingToSearch. by rewrite Hq, Hf. }
  destruct (executeSearch_cases options svc) as [[_ Heq]|[Hno _]]; [|congruence].
  eexists. split; [exact Heq|]. repeat split; trivial.
  intros cfg <-. cbn [step]. by rewrite Heq.
Qed.

(** *** Cancellation and the generation counter *)

Lemma cancelActiveSearch_aborts (svc : Svc) c :
  abortController svc = Some c ->
  (c < List.length (controllers svc))%nat ->
  controllers (cancelActiveSearch svc) !! c = Some true.
Proof.
  intros Hc Hlt. unfold cancelActiveSearch; cbn. rewrite Hc.
  case_bool_decide as Hflag.
  - by apply list_lookup_insert_eq.
  - destruct (lookup_lt_is_Some_2 (controllers svc) c Hlt) as [[] Hb]; congruence.
Qed.

Lemma clear_requestId (svc : Svc) : requestId (clear svc) = requestId svc.
Proof. reflexivity. Qed.

(** What the calls do to the controllers and the counter. A call of
    [executeSearch] with a non-empty query or a valid filter aborts the
    controller in flight, installs a fresh one that is not aborted, and
    increments the generation id. A call that takes the early return
    touches neither the controllers nor the generation id. A call of
    [clear] aborts the controller in flight and drops the reference to
    it. *)
Lemma cancellation_and_generation options (svc : Svc) :
  (nothingToSearch (state svc) = false ->
   let svc' := fst (search options svc) in
   requestId svc' = requestId svc + 1
   /\ (forall c, abortController svc = Some c ->
                 (c < List.length (controllers svc))%nat ->
                 controllers svc' !! c = Some true)
   /\ abortController svc' = Some (List.length (controllers svc))
   /\ controllers svc' !! List.length (controllers svc) = Some false)
  /\ (nothingToSearch (state svc) = true ->
      let svc' := fst (search options svc) in
      requestId svc' = requestId svc
      /\ controllers svc' = controllers svc
      /\ abortController svc' = abortController svc)
  /\ ((forall c, abortController svc = Some c ->
                 (c < List.length (controllers svc))%nat ->
                 controllers (clear svc) !! c = Some true)
      /\ abortController (clear svc) = None).
Proof.
  split; [|split].
  - intros Hsome.
    destruct (executeSearch_cases options svc)
      as [[Hno _]|[_ (svc' & lc & hc & Heq & Hid & Hctl & Hheap & _)]]; [congruence|].
    rewrite Heq. cbn [fst]. split; [done|]. split; [|split; [done|]].
    + intros c Hc Hlt. rewrite Hheap. rewrite lookup_app_l.
      * by apply cancelActiveSearch_aborts.
      * unfold cancelActiveSearch; cbn.
        destruct (abortController svc); [case_bool_decide|]; by rewrite ?length_insert.
    + rewrite Hheap. rewrite lookup_app_r.
      * unfold cancelActiveSearch; cbn.
        destruct (abortController svc); [case_bool_decide|];
          rewrite ?length_insert, Nat.sub_diag; done.
      * unfold cancelActiveSearch; cbn.
        destruct (abortController svc); [case_bool_decide|]; by rewrite ?length_insert.
  - intros Hnothing.
    destruct (executeSearch_cases options svc) as [[_ Heq]|[Hno _]]; [|congruence].
    by rewrite Heq.
  - split; [|reflexivity]. intros c Hc Hlt. by apply cancelActiveSearch_aborts.
Qed.

(** *** Pagination *)

(** C5. When [hasMore] is false or [isLoadingMore] is true,
    [loadMoreResults] returns with the service untouched and no executor
    call issued. *)
Theorem loadMoreResults_noop (svc : Svc) :
  hasMore (state svc) = false \/ isLoadingMore (state svc) = true ->
  more svc = (svc, None)
  /\ forall cfg : @Config Story,
       service cfg = svc -> stepS CallLoadMoreResults cfg = Some cfg.
Proof.
  intros H.
  assert (Heq : more svc = (svc, None)).
  { unfold loadMoreResults. destruct H as [-> | ->]; [|done].
    by rewrite orb_true_r. }
  split; [done|]. intros [s gs ms] Hs. cbn in Hs. subst s. cbn [step service].
  by rewrite Heq.
Qed.

Lemma currentOffset_applyFilterSuggestion sg c (svc : Svc) :
  currentOffset (state (fst (applyFilterSuggestion parseInput chipText sg c svc)))
  = currentOffset (state svc).
Proof.
  unfold applyFilterSuggestion.
  destruct (Chip.applyFilterSuggestion chipText sg c (chipService svc)) as [cs []]; reflexivity.
Qed.

Lemma currentOffset_handleChipDeletion sel (svc : Svc) :
  currentOffset (state (fst (handleChipDeletion parseInput sel svc)))
  = currentOffset (state svc).
Proof.
  unfold handleChipDeletion.
  destruct (Chip.handleBackspaceChipDeletion sel (chipService svc)) as [cs res].
  destruct (Chip.deleted res); [|reflexivity].
  destruct (JS.truthy (Chip.filterText res)); reflexivity.
Qed.

Lemma currentOffset_navigateSelection d (svc : Svc) :
  currentOffset (state (navigateSelection d svc)) = currentOffset (state svc).
Proof. unfold navigateSelection. destruct (_ =? 0), d; reflexivity. Qed.

Lemma currentOffset_onLocalResolved rid r (svc : Svc) :
  currentOffset (state (localDone rid r svc)) = currentOffset (state svc).
Proof. unfold onLocalResolved. by case_bool_decide. Qed.

Lemma currentOffset_onHistoricalResolved rid r (svc : Svc) :
  currentOffset (state (historicalDone rid r svc)) = currentOffset (state svc)
  \/ currentOffset (state (historicalDone rid r svc)) = 0.
Proof. unfold onHistoricalResolved. case_bool_decide; [by right|by left]. Qed.

Lemma currentOffset_onFailed rid (svc : Svc) :
  currentOffset (state (onFailed rid svc)) = currentOffset (state svc).
Proof. unfold onFailed. by case_bool_decide. Qed.

Lemma loadMoreResults_call (svc svc' : Svc) call :
  more svc = (svc', Some call) ->
  offset (e_options call) = currentOffset (state svc) + DEFAULT_SEARCH_LIMIT
  /\ currentOffset (state svc') = currentOffset (state svc).
Proof.
  unfold loadMoreResults. destruct (_ || _); [done|].
  intros H. inversion_clear H. by cbn.
Qed.

(** C6, as amended. An event of a run other than the successful
    resolution of a [loadMoreResults] fetch leaves [currentOffset] as it
    is or resets it to 0, and the resets are a search that starts, the
    historical completion of the current generation, and [clear]. The
    fetch of a [loadMoreResults] call asks for the [currentOffset] at the
    time of the call plus [DEFAULT_SEARCH_LIMIT], and the call itself
    leaves [currentOffset] alone. When such a fetch resolves successfully
    in a state whose [currentOffset] is still the one it was issued at,
    [currentOffset] advances by exactly [DEFAULT_SEARCH_LIMIT]. When the
    fetch throws, [currentOffset] is unchanged. *)
Theorem currentOffset_bookkeeping :
  (forall (cfg cfg' : @Config Story) ev,
     stepS ev cfg = Some cfg' ->
     more_resolves ev = false ->
     currentOffset (state (service cfg')) = currentOffset (state (service cfg))
     \/ (resets_offset ev = true /\ currentOffset (state (service cfg')) = 0))
  /\ (forall (svc svc' : Svc) call,
        more svc = (svc', Some call) ->
        offset (e_options call) = currentOffset (state svc) + DEFAULT_SEARCH_LIMIT
        /\ currentOffset (state svc') = currentOffset (state svc))
  /\ (forall (cfg cfg' : @Config Story) m r call,
        stepS (MoreResolves m r) cfg = Some cfg' ->
        moreFetches cfg !! m = Some call ->
        offset (e_options call)
        = currentOffset (state (service cfg)) + DEFAULT_SEARCH_LIMIT ->
        currentOffset (state (service cfg'))
        = currentOffset (state (service cfg)) + DEFAULT_SEARCH_LIMIT)
  /\ (forall (cfg cfg' : @Config Story) m,
        stepS (MoreRejects m) cfg = Some cfg' ->
        currentOffset (state (service cfg')) = currentOffset (state (service cfg)))
  /\ (forall options (svc : Svc),
        nothingToSearch (state svc) = false ->
        currentOffset (state (fst (search options svc))) = 0).
Proof.
  split; [|split; [|split; [|split]]].
  - intros cfg cfg' ev Hstep Hother. destruct ev; cbn [step] in Hstep; try discriminate Hother.
    + inversion_clear Hstep. by left.
    + inversion_clear Hstep. left. apply currentOffset_applyFilterSuggestion.
    + inversion_clear Hstep. left. apply currentOffset_handleChipDeletion.
    + destruct (executeSearch_cases options (service cfg))
        as [[_ Heq]|[_ (svc' & lc & hc & Heq & _ & _ & _ & Hoff)]];
        rewrite Heq in Hstep; inversion_clear Hstep; cbn; [by left|].
      right. by split.
    + destruct (more (service cfg)) as [svc' [call|]] eqn:Hmore.
      * destruct (loadMoreResults_call _ _ _ Hmore) as [_ Hsame].
        inversion_clear Hstep. by left.
      * unfold loadMoreResults in Hmore. destruct (_ || _); [|done].
        inversion Hmore; subst svc'. inversion_clear Hstep. by left.
    + inversion_clear Hstep. left. apply currentOffset_navigateSelection.
    + inversion_clear Hstep. right. by split.
    + inversion_clear Hstep. by left.
    + destruct (generations cfg !! g) as [gen|]; [|done]. cbn in Hstep.
      destruct (is_open (g_local gen)); inversion_clear Hstep. left.
      apply currentOffset_onLocalResolved.
    + destruct (generations cfg !! g) as [gen|]; [|done]. cbn in Hstep.
      destruct (is_open (g_local gen)); inversion_clear Hstep. by left.
    + destruct (generations cfg !! g) as [gen|]; [|done]. cbn in Hstep.
      destruct (g_historical gen) as [[call| | |]|]; try done.
      destruct (signal_live _ _ _); inversion_clear Hstep. cbn.
      destruct (currentOffset_onHistoricalResolved (g_requestId gen) r (service cfg))
        as [H|H]; [by left|right; by split].
    + destruct (generations cfg !! g) as [gen|]; [|done]. cbn in Hstep.
      destruct (g_historical gen) as [[call| | |]|]; try done.
      inversion_clear Hstep. by left.
    + destruct (generations cfg !! g) as [gen|]; [|done]. cbn in Hstep.
      destruct (g_awaiting gen); [|done].
      destruct (g_local gen), (g_historical gen) as [[| | |]|]; try done;
        inversion_clear Hstep; left; cbn; try apply currentOffset_onFailed; done.
    + destruct (moreFetches cfg !! m) as [call|]; [|done]. cbn in Hstep.
      inversion_clear Hstep. by left.
  - intros svc svc' call Hmore. by apply loadMoreResults_call.
  - intros cfg cfg' m r call Hstep Hm Hissued. cbn [step] in Hstep.
    rewrite Hm in Hstep. cbn in Hstep.
    destruct (signal_live _ _ _); inversion_clear Hstep. cbn. exact Hissued.
  - intros cfg cfg' m Hstep. cbn [step] in Hstep.
    destruct (moreFetches cfg !! m) as [call|]; [|done]. cbn in Hstep.
    by inversion_clear Hstep.
  - intros options svc Hsome.
    destruct (executeSearch_cases options svc)
      as [[Hno _]|[_ (svc' & lc & hc & Heq & _ & _ & _ & Hoff)]]; [congruence|].
    by rewrite Heq.
Qed.

(** *** Selection *)

(** The early return of [executeSearch] empties [results] and keeps
    [selectedIndex]. *)
Lemma executeSearch_early_return_selection options (svc : Svc) :
  nothingToSearch (state svc) = true ->
  results (state (fst (search options svc))) = []
  /\ selectedIndex (state (fst (search options svc))) = selectedIndex (state svc).
Proof.
  intros Hnothing.
  destruct (executeSearch_cases options svc) as [[_ Heq]|[Hno _]]; [|congruence].
  by rewrite Heq.
Qed.

(** C10. [getSelectedResult] is a total function of the service: it is
    the result at [selectedIndex] when that is an index of [results], and
    null otherwise, in particular whenever [results] is empty. *)
Theorem getSelectedResult_total (svc : Svc) :
  let i := selectedIndex (state svc) in
  let rs := results (state svc) in
  (0 <= i < Z.of_nat (List.length rs) ->
   exists r, getSelectedResult svc = Some r /\ rs !! Z.to_nat i = Some r)
  /\ (~ (0 <= i < Z.of_nat (List.length rs)) -> getSelectedResult svc = None)
  /\ (rs = [] -> getSelectedResult svc = None).
Proof.
  cbn zeta. unfold getSelectedResult, at_index.
  split; [|split].
  - intros [Hlo Hhi].
    destruct (selectedIndex (state svc) <? 0) eqn:Hneg; [lia|].
    destruct (lookup_lt_is_Some_2 (results (state svc)) (Z.to_nat (selectedIndex (state svc))))
      as [r Hr]; [lia|].
    by exists r.
  - intros Hout.
    destruct (selectedIndex (state svc) <? 0) eqn:Hneg; [done|].
    apply lookup_ge_None_2. lia.
  - intros ->. destruct (selectedIndex (state svc) <? 0); [done|].
    apply lookup_nil.
Qed.

End ServiceProofs.

(** ** The chip service *)

Section ChipProofs.

Variable chipText : string -> string -> string.

Lemma includes_space_spec (v : string) :
  JS.includes_space v = true <-> " "%char ∈ String.list_ascii_of_string v.
Proof.
  induction v as [|c rest IH]; cbn.
  - split; [done|]. intros H. inversion H.
  - rewrite elem_of_cons. destruct (Ascii.eqb c " ") eqn:Hc.
    + apply Ascii.eqb_eq in Hc. split; [|done]. intros _. by left.
    + apply Ascii.eqb_neq in Hc. rewrite IH. split; [by right|].
      intros [Heq|H]; [congruence|done].
Qed.

Lemma map_set_elem (k : string) (v : SearchFilter) (m : list (string * SearchFilter)) :
  (k, v) ∈ Chip.map_set k v m.
Proof.
  induction m as [|[k' v'] m IH]; cbn.
  - apply elem_of_cons. by left.
  - destruct (String.eqb k' k); apply elem_of_cons; [by left|by right].
Qed.

Lemma chip_tokens_text_if_truthy (s : string) : chip_tokens (Chip.text_if_truthy s) = [].
Proof. unfold Chip.text_if_truthy. by destruct (JS.truthy_string s). Qed.

(** The token of line 143 in [handleChipDeletion] is built as the chip
    service builds it. *)
Lemma filterTextOf_completedFilter (f : SearchFilter) :
  filterTextOf f = Chip.completedFilter (type f) (value f).
Proof. reflexivity. Qed.

(** C8, as amended. For an accepted value suggestion on a mounted
    element, [applyFilterSuggestion] succeeds and leaves exactly one chip,
    whose token is [type:value] with the value wrapped in double quotes if
    and only if it contains a space character (U+0020); unless the context
    type is "suggestion", the filter is recorded under that token. *)
Theorem value_suggestion_token (suggestion : FilterSuggestion) (context : FilterContext)
    (cs : Chip.ChipService) :
  isFilterType suggestion = false ->
  is_Some (Chip.element cs) ->
  let v := s_value suggestion in
  let token :=
    c_type context +:+ ":" +:+
    (if JS.includes_space v then Chip.dquote +:+ v +:+ Chip.dquote else v) in
  (JS.includes_space v = true <-> " "%char ∈ String.list_ascii_of_string v)
  /\ exists cs' nodes',
       Chip.applyFilterSuggestion chipText suggestion context cs = (cs', true)
       /\ Chip.element cs' = Some nodes'
       /\ chip_tokens nodes' = [token]
       /\ (String.eqb (c_type context) "suggestion" = false ->
           (token, mkFilter (c_type context) v (Chip.or_else (s_display suggestion) v) true)
           ∈ Chip.appliedFilters cs').
Proof.
  intros Hvalue [nodes Hnodes]. cbn zeta. split; [apply includes_space_spec|].
  unfold Chip.applyFilterSuggestion, Chip.replacePartialTextWithChip.
  rewrite Hnodes, Hvalue. do 2 eexists. split; [reflexivity|]. cbn [Chip.element].
  split; [reflexivity|]. split.
  - unfold chip_tokens. rewrite omap_app. fold (chip_tokens (Chip.text_if_truthy
      (JS.substring_to (startIndex context) (Chip.elementTextContent chipText nodes)))).
    rewrite chip_tokens_text_if_truthy. cbn.
    by destruct (JS.trim_truthy _).
  - intros Hty. cbn [Chip.appliedFilters]. rewrite Hty. cbn. apply map_set_elem.
Qed.

End ChipProofs.

(** ** The claims on concrete inputs *)

Section Concrete.

Import Sample.

(** A local "Alpha" and a historical "alpha" give one entry, the local
    one, ahead of the other historical results. *)
Example combine_alpha :
  combineResults item_title JS.lower
    [local "Alpha" 1] [historical "alpha" 2; historical "Beta" 3]
  = [local "Alpha" 1; historical "Beta" 3].
Proof. reflexivity. Qed.

(** C2 as stated fails: a historical result with an empty title shares it
    with no earlier result, yet it is not emitted. *)
Lemma combine_drops_untitled_fresh :
  combineAsClaimed item_title JS.lower [] [historical EmptyString 7]
  = [historical EmptyString 7]
  /\ combineResults item_title JS.lower [] [historical EmptyString 7] = []
  /\ combineResults item_title JS.lower [] [historical EmptyString 7]
     <> combineAsClaimed item_title JS.lower [] [historical EmptyString 7].
Proof. repeat split; vm_compute; congruence. Qed.

Lemma combineResults_guarded_merge_witness :
  exists emitted,
    combineResults item_title JS.lower
      [local "Alpha" 1] [historical "alpha" 2; historical "Beta" 3]
    = [local "Alpha" 1] ++ emitted
    /\ sublist emitted [historical "alpha" 2; historical "Beta" 3].
Proof.
  destruct (combineResults_guarded_merge item_title JS.lower
              [local "Alpha" 1] [historical "alpha" 2; historical "Beta" 3])
    as (_ & _ & emitted & Heq & Hsub & _).
  exists emitted. split; assumption.
Defined.

Lemma combineResults_drops_blank_historical_witness :
  combineResults item_title JS.lower
    [local "Alpha" 1] ([historical "Beta" 3] ++ untitled 4 :: [historical "Gamma" 5])
  = combineResults item_title JS.lower
      [local "Alpha" 1] ([historical "Beta" 3] ++ [historical "Gamma" 5]).
Proof.
  apply (proj2 (combineResults_drops_blank_historical item_title JS.lower
                  [local "Alpha" 1] [] eq_refl)).
  left. reflexivity.
Defined.

(** Generation 1 and generation 2 are started back to back, generation 2
    completes, and then the historical response of generation 1 arrives
    from an executor that ignored the abort. *)
Lemma stale_generation_suppressed_witness :
  exists cfg,
    laxRun twoGenerations start = Some cfg
    /\ is_Some (laxStep (HistoricalResolves 0
                           (historicalReply [historical "abc stale" 3] 9 true)) cfg)
    /\ forall cfg',
         laxStep (HistoricalResolves 0
                    (historicalReply [historical "abc stale" 3] 9 true)) cfg = Some cfg' ->
         service cfg' = service cfg
         /\ results (state (service cfg')) = [local "abc now" 1; historical "abc then" 2].
Proof.
  eexists. split; [vm_compute; reflexivity|].
  split; [vm_compute; eexists; reflexivity|].
  intros cfg' Hstep.
  match type of Hstep with laxStep _ ?cfg = _ =>
    assert (Hsame : service cfg' = service cfg)
  end.
  { eapply (proj1 (proj2 (stale_generation_suppressed item_title JS.lower limit true
                            parse chipText false))) with (g := 0%nat).
    - exists (Some []), twoGenerations. vm_compute. reflexivity.
    - reflexivity.
    - cbn. lia.
    - right. exact Hstep. }
  split; [exact Hsame|]. rewrite Hsame. reflexivity.
Defined.

Lemma executeSearch_empty_query_witness :
  exists svc',
    executeSearch limit true noOptions (newService (Story := Item) (Some [])) = (svc', Returned [])
    /\ isLoading (state svc') = false.
Proof.
  destruct (executeSearch_empty_query item_title JS.lower limit true parse chipText true
              noOptions (newService (Story := Item) (Some [])) eq_refl eq_refl)
    as (svc' & Heq & _ & _ & Hload & _).
  exists svc'. split; [exact Heq|]. apply Hload. reflexivity.
Defined.

(** The service after "abc" was typed and searched: generation 1 with
    controller 0 in flight. *)
Lemma cancellation_and_generation_witness :
  let svc := fst (executeSearch limit true noOptions
                    (updateFromInput parse "abc" (newService (Story := Item) (Some [])))) in
  let svc' := fst (executeSearch (Story := Item) limit true noOptions svc) in
  requestId svc = 1 /\ requestId svc' = 2 /\ controllers svc' !! 0%nat = Some true.
Proof.
  cbn zeta.
  pose proof (proj1 (cancellation_and_generation limit true noOptions
                (fst (executeSearch limit true noOptions
                        (updateFromInput parse "abc" (newService (Story := Item) (Some []))))))
              eq_refl) as (Hid & Habort & _).
  split; [reflexivity|]. split; [exact Hid|].
  apply Habort; [reflexivity|cbn; lia].
Defined.

(** C4 fails on the code. Generation 1 is in flight under controller 0
    when the input is emptied and searched again: the early return of
    [executeSearch] neither aborts controller 0 nor moves the generation
    id, so generation 1 is still the current one, and when its local
    response arrives it is written into the state of the emptied search.
    [clear] aborts controller 0 but leaves the generation id at 1 as
    well, and the local response of generation 1 is written into the
    cleared state. *)
Theorem abandoned_generation_stays_current :
  (exists before cfg cfg',
     strictRun [typed "abc"; searched; typed EmptyString] start = Some before
     /\ strictStep searched before = Some cfg
     /\ strictRun emptiedInFlight start = Some cfg
     /\ ~ cancels_and_increments (service before) (service cfg)
     /\ requestId (service before) = 1
     /\ requestId (service cfg) = 1
     /\ abortController (service cfg) = Some 0%nat
     /\ controllers (service cfg) !! 0%nat = Some false
     /\ query (state (service cfg)) = EmptyString
     /\ results (state (service cfg)) = []
     /\ strictStep (LocalResolves 0 (localReply [local "abc now" 1])) cfg = Some cfg'
     /\ results (state (service cfg')) = [local "abc now" 1])
  /\ (exists before cfg cfg',
        strictRun [typed "abc"; searched] start = Some before
        /\ strictStep CallClear before = Some cfg
        /\ strictRun clearedInFlight start = Some cfg
        /\ ~ cancels_and_increments (service before) (service cfg)
        /\ requestId (service before) = 1
        /\ requestId (service cfg) = 1
        /\ controllers (service cfg) !! 0%nat = Some true
        /\ query (state (service cfg)) = EmptyString
        /\ results (state (service cfg)) = []
        /\ strictStep (LocalResolves 0 (localReply [local "abc now" 1])) cfg = Some cfg'
        /\ results (state (service cfg')) = [local "abc now" 1]).
Proof.
  split.
  - do 3 eexists. split; [vm_compute; reflexivity|].
    split; [vm_compute; reflexivity|]. split; [vm_compute; reflexivity|].
    split; [intros [Hid _]; vm_compute in Hid; discriminate Hid|].
    do 6 (split; [reflexivity|]). split; [vm_compute; reflexivity|]. reflexivity.
  - do 3 eexists. split; [vm_compute; reflexivity|].
    split; [vm_compute; reflexivity|]. split; [vm_compute; reflexivity|].
    split; [intros [Hid _]; vm_compute in Hid; discriminate Hid|].
    do 5 (split; [reflexivity|]). split; [vm_compute; reflexivity|]. reflexivity.
Qed.

Lemma loadMoreResults_noop_witness :
  loadMoreResults (Story := Item) limit (newService (Story := Item) (Some []))
  = (newService (Some []), None).
Proof.
  apply (proj1 (loadMoreResults_noop item_title JS.lower limit true parse chipText true
                  (newService (Story := Item) (Some [])) (or_introl eq_refl))).
Defined.

Lemma currentOffset_bookkeeping_witness :
  exists cfg cfg',
    strictRun pageRequested start = Some cfg
    /\ strictStep (MoreResolves 0 (historicalReply [historical "abc older" 3] 50 true)) cfg
       = Some cfg'
    /\ currentOffset (state (service cfg)) = 0
    /\ currentOffset (state (service cfg')) = 20.
Proof.
  destruct (strictRun pageRequested start) as [cfg|] eqn:Hrun;
    [|vm_compute in Hrun; discriminate Hrun].
  assert (Hcfg : currentOffset (state (service cfg)) = 0
                 /\ moreFetches cfg
                    = [mkCall "abc" [] (mkOptions false true 20 20 (Some 0%nat))]
                 /\ controllers (service cfg) = [false]).
  { vm_compute in Hrun. inversion Hrun. repeat split. }
  destruct Hcfg as (Hzero & Hfetch & Hheap).
  destruct (strictStep (MoreResolves 0 (historicalReply [historical "abc older" 3] 50 true)) cfg)
    as [cfg'|] eqn:Hstep.
  - exists cfg, cfg'. split; [reflexivity|]. split; [exact Hstep|]. split; [exact Hzero|].
    rewrite (proj1 (proj2 (proj2 (currentOffset_bookkeeping item_title JS.lower limit true
                                    parse chipText true)))
               cfg cfg' 0%nat _ (mkCall "abc" [] (mkOptions false true 20 20 (Some 0%nat)))
               Hstep).
    + rewrite Hzero. reflexivity.
    + rewrite Hfetch. reflexivity.
    + rewrite Hzero. reflexivity.
  - cbn [step] in Hstep. rewrite Hfetch in Hstep. cbn in Hstep.
    unfold signal_live in Hstep. rewrite Hheap in Hstep. cbn in Hstep. discriminate Hstep.
Defined.

(** C6 as stated fails: after the second page has been loaded
    [currentOffset] is 20, and [clear], which starts no search and loads
    no page, puts it back to 0. *)
Lemma clear_resets_offset :
  ~ offset_changes_as_claimed (Story := Item) item_title JS.lower limit true parse chipText true.
Proof.
  intros Hclaim.
  destruct (strictRun secondPage start) as [cfg|] eqn:Hrun;
    [|vm_compute in Hrun; discriminate Hrun].
  assert (Hoff : currentOffset (state (service cfg)) = 20).
  { vm_compute in Hrun. inversion Hrun. reflexivity. }
  assert (Hreach : reachable item_title JS.lower limit true parse chipText true cfg).
  { exists (Some []), secondPage. exact Hrun. }
  assert (Hstep : step item_title JS.lower limit true parse chipText true CallClear cfg
                  = Some (only_service cfg (clear (service cfg)))) by reflexivity.
  assert (Hne : currentOffset (state (service (only_service cfg (clear (service cfg)))))
                <> currentOffset (state (service cfg))).
  { cbn. rewrite Hoff. clear. intros H. discriminate H. }
  destruct (Hclaim cfg _ CallClear Hreach Hstep Hne) as [[Hs _]|[Hm _]];
    [discriminate Hs|discriminate Hm].
Qed.

(** The historical completion of the current generation is another such
    reset: a page loaded while generation 2 is in flight moves
    [currentOffset] to 20, and generation 2's historical completion puts
    it back to 0. *)
Example historical_completion_resets_offset :
  exists cfg cfg',
    strictRun (firstPage ++ [searched; CallLoadMoreResults;
                             MoreResolves 0 (historicalReply [historical "abc older" 3] 50 true)])
              start = Some cfg
    /\ currentOffset (state (service cfg)) = 20
    /\ strictStep (HistoricalResolves 1 (historicalReply [historical "abc then" 2] 50 true)) cfg
       = Some cfg'
    /\ currentOffset (state (service cfg')) = 0.
Proof.
  do 2 eexists. split; [vm_compute; reflexivity|]. split; [reflexivity|].
  split; [vm_compute; reflexivity|]. reflexivity.
Qed.

(** The advance by one page presumes that nothing reset [currentOffset]
    between the call of [loadMoreResults] and the resolution of its
    fetch. Here the page after offset 20 has been asked for, the
    historical completion of the search in flight puts [currentOffset]
    back to 0, and the page then resolves: line 364 writes the offset
    computed at line 333, and [currentOffset] goes from 0 to 40. *)
Example page_resolves_after_reset :
  exists cfg cfg',
    strictRun resetBeforePage start = Some cfg
    /\ currentOffset (state (service cfg)) = 0
    /\ strictStep (MoreResolves 0 (historicalReply [historical "abc oldest" 4] 50 true)) cfg
       = Some cfg'
    /\ currentOffset (state (service cfg')) = 40.
Proof.
  do 2 eexists. split; [vm_compute; reflexivity|]. split; [reflexivity|].
  split; [vm_compute; reflexivity|]. reflexivity.
Qed.

(** C1 fails on the code. Generation 2 is started while generation 1 is
    in flight; both fetches of generation 1 settle, its historical one
    with the abort error, and nothing of the state changes. Generation 2
    is still loading, neither of its fetches has settled. When the call
    of generation 1 resumes after its awaits, line 305 sets [isLoading]
    to false without comparing the request ids: a superseded generation
    has changed SearchState. *)
Theorem superseded_call_clears_isLoading :
  exists cfg cfg' superseded current,
    strictRun supersededSettles start = Some cfg
    /\ requestId (service cfg) = 2
    /\ generations cfg !! 0%nat = Some superseded
    /\ g_requestId superseded = 1
    /\ generations cfg !! 1%nat = Some current
    /\ g_requestId current = 2
    /\ is_open (g_local current) = true
    /\ is_open <$> g_historical current = Some true
    /\ g_awaiting current = true
    /\ isLoading (state (service cfg)) = true
    /\ strictStep (SearchResumes 0) cfg = Some cfg'
    /\ generations cfg' !! 1%nat = Some current
    /\ isLoading (state (service cfg')) = false
    /\ state (service cfg') <> state (service cfg).
Proof.
  do 4 eexists. split; [vm_compute; reflexivity|].
  do 9 (split; [reflexivity|]). split; [vm_compute; reflexivity|].
  do 2 (split; [reflexivity|]). cbn. intros H. discriminate H.
Qed.

(** C7 fails on the code. Five local results are listed, the selection is
    moved down to index 3, the input is emptied and searched again: the
    early return of [executeSearch] empties [results] and leaves
    [selectedIndex] at 3, which is neither an index of [results] nor 0. *)
Theorem early_return_leaves_stale_selection :
  exists cfg,
    strictRun emptiedAfterSelection start = Some cfg
    /\ results (state (service cfg)) = []
    /\ selectedIndex (state (service cfg)) = 3
    /\ ~ selection_valid (state (service cfg)).
Proof.
  eexists. split; [vm_compute; reflexivity|]. cbn.
  repeat split. unfold selection_valid. cbn. discriminate.
Qed.

Lemma value_suggestion_token_witness :
  exists cs' nodes',
    Chip.applyFilterSuggestion chipText
      (mkSuggestion "New York" "New York" "City" false)
      (mkContext "from" 4 "from:New")
      (Chip.mkChipService (Some [Chip.TextNode "ai from:New"]) [])
    = (cs', true)
    /\ Chip.element cs' = Some nodes'
    /\ chip_tokens nodes' = ["from:" +:+ Chip.dquote +:+ "New York" +:+ Chip.dquote].
Proof.
  destruct (value_suggestion_token chipText
              (mkSuggestion "New York" "New York" "City" false)
              (mkContext "from" 4 "from:New")
              (Chip.mkChipService (Some [Chip.TextNode "ai from:New"]) [])
              eq_refl (mk_is_Some _ _ eq_refl))
    as (_ & cs' & nodes' & Heq & Hel & Htok & _).
  exists cs', nodes'. repeat split; assumption.
Defined.

(** C8 as stated fails: a value with a TAB contains whitespace, and its
    token is built without quotes. *)
Lemma tab_value_not_quoted :
  JS.contains_whitespace tabbed = true
  /\ exists cs',
       Chip.applyFilterSuggestion chipText
         (mkSuggestion tabbed EmptyString EmptyString false)
         (mkContext "from" 0 "from:")
         (Chip.mkChipService (Some [Chip.TextNode "from:"]) [])
       = (cs', true)
       /\ chip_tokens (default [] (Chip.element cs')) = ["from:" +:+ tabbed]
       /\ "from:" +:+ tabbed <> token_as_claimed "from" tabbed.
Proof.
  split; [reflexivity|]. eexists. split; [reflexivity|].
  split; [reflexivity|]. vm_compute. discriminate.
Qed.

Lemma getSelectedResult_total_witness :
  getSelectedResult
    (mkService (mkState "alpha" [] fiveLocal false false false 3 5 0 []) None [] 1
               (Chip.mkChipService None []))
  = Some (local "alpha four" 4).
Proof.
  destruct (proj1 (getSelectedResult_total
                     (mkService (mkState "alpha" [] fiveLocal false false false 3 5 0 [])
                                None [] 1 (Chip.mkChipService None []))))
    as (r & Hget & Hat); [cbn; lia|].
  rewrite Hget, <- Hat. reflexivity.
Defined.

End Concrete.

(** * Further properties *)

(** ** More on merging *)

Section CombineExtras.

Context {Story : Type}.
Variable title : Story -> option string.
Variable toLowerCase : string -> string.

#[local] Abbreviation lowered := (lowerTitle title toLowerCase).
#[local] Abbreviation combine := (combineResults title toLowerCase).
#[local] Abbreviation guarded := (combineGuarded title toLowerCase).
#[local] Abbreviation fresh := (freshTitle title toLowerCase).

Lemma guarded_keeps_titles (h l : list (SearchResult Story)) t :
  t ∈ lowered <$> l -> t ∈ lowered <$> guarded l h.
Proof.
  intros Ht. destruct (guarded_shape title toLowerCase h l) as (hs & Heq & _).
  rewrite Heq, fmap_app. apply elem_of_app. by left.
Qed.

Lemma guarded_covers (h l : list (SearchResult Story)) x :
  x ∈ h -> JS.truthy (lowered x) = true -> lowered x ∈ lowered <$> guarded l h.
Proof.
  revert l. induction h as [|y h IH]; intros l Hx Ht; [inversion Hx|].
  unfold combineGuarded. cbn [foldl]. apply elem_of_cons in Hx as [->|Hx].
  - rewrite Ht. cbn [andb]. destruct (fresh l y) eqn:Hf.
    + apply guarded_keeps_titles. rewrite fmap_app. apply elem_of_app. right.
      apply list_elem_of_singleton. reflexivity.
    + apply guarded_keeps_titles.
      unfold freshTitle in Hf. apply negb_false_iff, bool_decide_eq_true in Hf. exact Hf.
  - destruct (JS.truthy (lowered y) && fresh l y); by apply IH.
Qed.

Lemma guarded_fixed (h l : list (SearchResult Story)) :
  (forall x, x ∈ h -> JS.truthy (lowered x) = true -> lowered x ∈ lowered <$> l) ->
  guarded l h = l.
Proof.
  induction h as [|y h IH]; intros Hall; [reflexivity|].
  unfold combineGuarded. cbn [foldl].
  destruct (JS.truthy (lowered y)) eqn:Ht; cbn [andb].
  - assert (Hin : lowered y ∈ lowered <$> l).
    { apply Hall; [apply elem_of_cons; by left|done]. }
    unfold freshTitle. rewrite bool_decide_eq_true_2 by done. cbn.
    apply IH. intros x Hx. apply Hall. apply elem_of_cons. by right.
  - apply IH. intros x Hx. apply Hall. apply elem_of_cons. by right.
Qed.

(** X1. Merging the same historical page into the result of a merge adds
    nothing. *)
Theorem combineResults_again (localResults historicalResults : list (SearchResult Story)) :
  combine (combine localResults historicalResults) historicalResults
  = combine localResults historicalResults.
Proof.
  rewrite !combine_is_guarded. apply guarded_fixed.
  intros x Hx Ht. by apply guarded_covers.
Qed.

(** X2. Every merged result comes from one of the two inputs, the merge is
    no longer than the two together, and no historical title is lost: a
    historical result whose lower-cased title is a non-empty string has
    that title on some merged result. *)
Theorem combineResults_sound_and_covering
    (localResults historicalResults : list (SearchResult Story)) :
  (forall r, r ∈ combine localResults historicalResults ->
             r ∈ localResults \/ r ∈ historicalResults)
  /\ (List.length localResults <= List.length (combine localResults historicalResults)
      <= List.length localResults + List.length historicalResults)%nat
  /\ (forall h, h ∈ historicalResults -> JS.truthy (lowered h) = true ->
                exists r, r ∈ combine localResults historicalResults
                          /\ lowered r = lowered h).
Proof.
  rewrite combine_is_guarded.
  destruct (guarded_shape title toLowerCase historicalResults localResults)
    as (hs & Heq & Hsub & _).
  split; [|split].
  - intros r Hr. rewrite Heq in Hr. apply elem_of_app in Hr as [Hr|Hr]; [by left|right].
    eapply elem_of_sublist; [exact Hr | exact Hsub].
  - rewrite Heq, length_app. apply sublist_length in Hsub. lia.
  - intros h Hh Ht.
    pose proof (guarded_covers historicalResults localResults h Hh Ht) as Hin.
    apply list_elem_of_fmap in Hin as (r & Hr & Hin). by exists r.
Qed.

(** X3. When the historical titles are non-empty, pairwise different after
    lower-casing and different from every local title, the merge is the
    concatenation of the two lists. *)
Theorem combineResults_without_collisions
    (localResults historicalResults : list (SearchResult Story)) :
  Forall (fun h => JS.truthy (lowered h) = true) historicalResults ->
  NoDup (lowered <$> historicalResults) ->
  (forall l h, l ∈ localResults -> h ∈ historicalResults -> lowered l <> lowered h) ->
  combine localResults historicalResults = localResults ++ historicalResults.
Proof.
  rewrite combine_is_guarded. revert localResults.
  induction historicalResults as [|x h IH]; intros l Hall Hnd Hdis.
  - by rewrite app_nil_r.
  - unfold combineGuarded. cbn [foldl].
    inversion_clear Hall as [|? ? Hx Hh]. rewrite fmap_cons in Hnd.
    inversion_clear Hnd as [|? ? Hnotin Hnd'].
    rewrite Hx. cbn [andb].
    assert (Hf : fresh l x = true).
    { unfold freshTitle. apply negb_true_iff, bool_decide_eq_false.
      intros Hin. apply list_elem_of_fmap in Hin as (a & Heq & Ha).
      eapply (Hdis a x); [done|apply elem_of_cons; by left|done]. }
    rewrite Hf. fold (guarded (l ++ [x]) h). rewrite IH; trivial.
    + by rewrite <- app_assoc.
    + intros a b Ha Hb. apply elem_of_app in Ha as [Ha|Ha].
      * apply Hdis; [done|apply elem_of_cons; by right].
      * apply list_elem_of_singleton in Ha as ->. intros Heq. apply Hnotin.
        rewrite Heq. by apply list_elem_of_fmap_2.
Qed.

End CombineExtras.

(** ** More on the service *)

Section ServiceExtras.

Context {Story : Type}.
Variable title : Story -> option string.
Variable toLowerCase : string -> string.
Variable DEFAULT_SEARCH_LIMIT : Z.
Variable historicalSearch : bool.
Variable parseInput : string -> string * list SearchFilter.
Variable chipText : string -> string -> string.
Variable honoursAbort : bool.

#[local] Abbreviation Svc := (@Service Story).
#[local] Abbreviation search := (@executeSearch Story DEFAULT_SEARCH_LIMIT historicalSearch).
#[local] Abbreviation more := (@loadMoreResults Story DEFAULT_SEARCH_LIMIT).
#[local] Abbreviation localDone := (@onLocalResolved Story).
#[local] Abbreviation historicalDone := (@onHistoricalResolved Story title toLowerCase).
#[local] Abbreviation stepS :=
  (@step Story title toLowerCase DEFAULT_SEARCH_LIMIT historicalSearch parseInput chipText
         honoursAbort).
#[local] Abbreviation runS :=
  (@run Story title toLowerCase DEFAULT_SEARCH_LIMIT historicalSearch parseInput chipText
        honoursAbort).
#[local] Abbreviation reachableS :=
  (@reachable Story title toLowerCase DEFAULT_SEARCH_LIMIT historicalSearch parseInput
              chipText honoursAbort).

(** *** Selection *)

Lemma service_eta (svc : Svc) :
  with_state (set_selectedIndex (selectedIndex (state svc))) svc = svc.
Proof. destruct svc as [[] ? ? ? ?]. reflexivity. Qed.

Lemma navigateSelection_step (direction : Direction) (svc : Svc) :
  let n := Z.of_nat (List.length (results (state svc))) in
  let i := selectedIndex (state svc) in
  let i' := selectedIndex (state (navigateSelection direction svc)) in
  navigateSelection direction svc = with_state (set_selectedIndex i') svc
  /\ (0 <= i < n ->
      0 <= i' < n
      /\ i' = match direction with
              | down => if i + 1 <? n then i + 1 else 0
              | up => if i =? 0 then n - 1 else i - 1
              end).
Proof.
  cbn zeta. unfold navigateSelection.
  destruct (Z.of_nat (List.length (results (state svc))) =? 0) eqn:Hn.
  - split; [by rewrite service_eta|]. lia.
  - apply Z.eqb_neq in Hn. destruct direction; cbn.
    + split; [reflexivity|]. intros Hi.
      destruct (selectedIndex (state svc) =? 0) eqn:Hz; lia.
    + split; [reflexivity|]. intros Hi.
      rewrite Z.rem_mod_nonneg by lia.
      destruct (selectedIndex (state svc) + 1 <? _) eqn:Hlt.
      * rewrite Z.mod_small by lia. lia.
      * assert (Heq : selectedIndex (state svc) + 1
                      = Z.of_nat (List.length (results (state svc)))) by lia.
        rewrite Heq, Z.mod_same by lia. lia.
Qed.

(** X4. [navigateSelection] writes [selectedIndex] and nothing else; from a
    valid index it moves one step with wrap-around and lands on a valid
    index. *)
Theorem navigateSelection_wraps (direction : Direction) (svc : Svc) :
  let n := Z.of_nat (List.length (results (state svc))) in
  let i := selectedIndex (state svc) in
  let i' := selectedIndex (state (navigateSelection direction svc)) in
  navigateSelection direction svc = with_state (set_selectedIndex i') svc
  /\ (0 <= i < n ->
      0 <= i' < n
      /\ i' = match direction with
              | down => if i + 1 <? n then i + 1 else 0
              | up => if i =? 0 then n - 1 else i - 1
              end).
Proof. apply navigateSelection_step. Qed.

(** X5. On a valid selection the two directions undo each other. *)
Theorem navigateSelection_round_trip (svc : Svc) :
  0 <= selectedIndex (state svc) < Z.of_nat (List.length (results (state svc))) ->
  navigateSelection up (navigateSelection down svc) = svc
  /\ navigateSelection down (navigateSelection up svc) = svc.
Proof.
  intros Hi. destruct svc as [[q f rs l lm hm i tc co ah] ac cs rid chip]. cbn in Hi.
  unfold navigateSelection. cbn.
  destruct (Z.of_nat (List.length rs) =? 0) eqn:Hn; [lia|]. cbn. rewrite Hn.
  split; unfold with_state, set_selectedIndex; cbn; do 2 f_equal.
  - rewrite Z.rem_mod_nonneg by lia.
    destruct (Z_lt_dec (i + 1) (Z.of_nat (List.length rs))) as [Hlt|Hge].
    + rewrite Z.mod_small by lia.
      destruct (i + 1 =? 0) eqn:Hz; lia.
    + assert (Heq : i + 1 = Z.of_nat (List.length rs)) by lia.
      rewrite Heq, Z.mod_same by lia. cbn. lia.
  - destruct (i =? 0) eqn:Hz.
    + replace (Z.of_nat (List.length rs) - 1 + 1) with (Z.of_nat (List.length rs)) by lia.
      rewrite Z.rem_mod_nonneg, Z.mod_same by lia. lia.
    + replace (i - 1 + 1) with i by lia.
      rewrite Z.rem_mod_nonneg, Z.mod_small by lia. reflexivity.
Qed.

Lemma press_down_index (k : nat) (svc : Svc) :
  0 <= selectedIndex (state svc) < Z.of_nat (List.length (results (state svc))) ->
  press_down k svc
  = with_state (set_selectedIndex
                  ((selectedIndex (state svc) + Z.of_nat k)
                   mod Z.of_nat (List.length (results (state svc))))) svc.
Proof.
  revert svc. induction k as [|k IH]; intros svc Hi.
  - cbn [press_down]. rewrite Z.add_0_r, Z.mod_small by lia. by rewrite service_eta.
  - cbn [press_down].
    destruct (navigateSelection_step down svc) as [Hframe Hvalid].
    destruct (Hvalid Hi) as [Hi' _]. clear Hvalid.
    rewrite IH.
    + rewrite Hframe at 1 2 3. cbn.
      unfold with_state, set_selectedIndex. cbn. do 2 f_equal.
      unfold navigateSelection.
      destruct (Z.of_nat (List.length (results (state svc))) =? 0) eqn:Hn; [lia|]. cbn.
      rewrite Z.rem_mod_nonneg by lia.
      rewrite Zplus_mod_idemp_l. f_equal. lia.
    + rewrite Hframe. cbn. rewrite Hframe in Hi'. cbn in Hi'. exact Hi'.
Qed.

(** X6. Pressing down as many times as there are results brings a valid
    selection back to where it was. *)
Theorem navigateSelection_full_cycle (svc : Svc) :
  0 <= selectedIndex (state svc) < Z.of_nat (List.length (results (state svc))) ->
  press_down (List.length (results (state svc))) svc = svc.
Proof.
  intros Hi. rewrite press_down_index by done.
  rewrite <- (Z.mul_1_l (Z.of_nat (List.length (results (state svc))))) at 1.
  rewrite Z.mod_add by lia. rewrite Z.mod_small by lia. apply service_eta.
Qed.

(** *** Completions of the current generation *)

(** X7. The local completion of the current generation lists the local
    results, selects the first of them, reports their count and ends the
    loading state: the selection is valid and [getSelectedResult] is the
    head of the list. *)
Theorem onLocalResolved_current (r : ExecutorResult Story) (svc : Svc) :
  let svc' := localDone (requestId svc) r svc in
  results (state svc') = localResults r
  /\ totalCount (state svc') = localCount r
  /\ isLoading (state svc') = false
  /\ selection_valid (state svc')
  /\ getSelectedResult svc' = head (localResults r)
  /\ same_listing (set_results (results (state svc'))
                     (set_totalCount (totalCount (state svc'))
                        (set_selectedIndex 0 (state svc)))) (state svc').
Proof.
  cbn zeta. unfold onLocalResolved. rewrite bool_decide_eq_true_2 by done. cbn.
  repeat split.
  - unfold selection_valid. cbn. destruct (localResults r); cbn; [done|lia].
  - unfold getSelectedResult, at_index. cbn. by destruct (localResults r).
Qed.

Lemma filter_noBatchId_emitted (hs : list (SearchResult Story)) :
  Forall (fun h => JS.truthy (batchId h) = true) hs -> List.filter noBatchId hs = [].
Proof.
  induction 1 as [|h hs Hh _ IH]; [reflexivity|].
  cbn. unfold noBatchId at 1. by rewrite Hh.
Qed.

Lemma filter_noBatchId_idemp (rs : list (SearchResult Story)) :
  List.filter noBatchId (List.filter noBatchId rs) = List.filter noBatchId rs.
Proof.
  induction rs as [|r rs IH]; [reflexivity|]. cbn.
  destruct (noBatchId r) eqn:Hr; [|exact IH]. cbn. by rewrite Hr, IH.
Qed.

(** X8. The historical completion of the current generation keeps every
    listed result that carries no batch id, in order and in front, stores
    the page, and appends historical results taken in order from the
    page; [selectedIndex] is left as it was. *)
Theorem onHistoricalResolved_current (r : ExecutorResult Story) (svc : Svc) :
  let svc' := historicalDone (requestId svc) r svc in
  allHistoricalResults (state svc') = historicalResults r
  /\ hasMore (state svc') = r_hasMore r
  /\ totalCount (state svc') = historicalCount r
  /\ selectedIndex (state svc') = selectedIndex (state svc)
  /\ exists emitted,
       results (state svc') = List.filter noBatchId (results (state svc)) ++ emitted
       /\ sublist emitted (historicalResults r).
Proof.
  cbn zeta. unfold onHistoricalResolved. rewrite bool_decide_eq_true_2 by done.
  cbn -[combineResults]. repeat split.
  destruct (guarded_shape title toLowerCase (historicalResults r)
              (List.filter noBatchId (results (state svc)))) as (hs & Heq & Hsub & _).
  exists hs. by rewrite combine_is_guarded.
Qed.

Lemma onHistoricalResolved_unfold (r : ExecutorResult Story) (svc : Svc) :
  historicalDone (requestId svc) r svc
  = with_state (fun st =>
      mkState (query st) (filters st)
        (combineResults title toLowerCase (List.filter noBatchId (results st))
           (historicalResults r))
        (isLoading st) (isLoadingMore st) (r_hasMore r) (selectedIndex st)
        (historicalCount r) 0 (historicalResults r)) svc.
Proof. unfold onHistoricalResolved. by rewrite bool_decide_eq_true_2. Qed.

(** X9. When every result of the page carries a batch id, applying the same
    historical completion a second time changes nothing. *)
Theorem onHistoricalResolved_twice (r : ExecutorResult Story) (svc : Svc) :
  Forall (fun h => JS.truthy (batchId h) = true) (historicalResults r) ->
  historicalDone (requestId svc) r (historicalDone (requestId svc) r svc)
  = historicalDone (requestId svc) r svc.
Proof.
  intros Hbatch.
  rewrite <- (requestId_onHistoricalResolved title toLowerCase (requestId svc) r svc) at 1.
  rewrite (onHistoricalResolved_unfold r (historicalDone (requestId svc) r svc)).
  rewrite (onHistoricalResolved_unfold r svc).
  unfold with_state. cbn -[combineResults]. f_equal. f_equal.
  rewrite !combine_is_guarded.
  destruct (guarded_shape title toLowerCase (historicalResults r)
              (List.filter noBatchId (results (state svc)))) as (hs & Heq & Hsub & _).
  rewrite Heq at 1.
  assert (Hhs : Forall (fun h => JS.truthy (batchId h) = true) hs).
  { apply Forall_forall. intros h Hh. rewrite Forall_forall in Hbatch.
    apply Hbatch. eapply elem_of_sublist; [exact Hh | exact Hsub]. }
  rewrite List.filter_app, filter_noBatchId_idemp, (filter_noBatchId_emitted hs Hhs),
    app_nil_r.
  reflexivity.
Qed.

(** *** clear *)

(** X10. [clear] puts SearchState back to its initial value, drops the
    controller reference, and doing it twice is doing it once; on the
    cleared service nothing is selected, [loadMoreResults] does nothing
    and [executeSearch] takes its early return. *)
Theorem clear_resets (svc : Svc) :
  state (clear svc) = initialState
  /\ abortController (clear svc) = None
  /\ clear (clear svc) = clear svc
  /\ getSelectedResult (clear svc) = None
  /\ more (clear svc) = (clear svc, None)
  /\ forall options, snd (search options (clear svc)) = Returned [].
Proof.
  repeat split.
  unfold clear, cancelActiveSearch. cbn. f_equal.
  unfold Chip.clear. destruct (Chip.element (chipService svc)) eqn:H; cbn;
    [reflexivity|by rewrite H].
Qed.

(** *** Pagination *)

(** X11. While a page fetch is in flight a second [loadMoreResults] does
    nothing; the flag it sets is cleared by the resolution and by the
    failure alike. *)
Theorem loadMoreResults_not_reentrant (svc svc' : Svc) call :
  more svc = (svc', Some call) ->
  isLoadingMore (state svc') = true
  /\ more svc' = (svc', None)
  /\ (forall r, isLoadingMore (state (onMoreResolved (offset (e_options call)) r svc')) = false)
  /\ isLoadingMore (state (onMoreFailed svc')) = false.
Proof.
  unfold loadMoreResults. destruct (_ || _) eqn:Hguard; [done|].
  intros H. inversion_clear H. by cbn.
Qed.

(** X12. A page fetch that fails leaves the service exactly as it was before
    [loadMoreResults] was called. *)
Theorem loadMoreResults_failure_restores (svc : Svc) :
  isLoadingMore (state svc) = false ->
  hasMore (state svc) = true ->
  exists svc' call,
    more svc = (svc', Some call)
    /\ abortSignal (e_options call) = abortController svc
    /\ e_query call = query (state svc)
    /\ onMoreFailed svc' = svc.
Proof.
  intros Hbusy Hmore. unfold loadMoreResults. rewrite Hbusy, Hmore. cbn.
  do 2 eexists. repeat split.
  destruct svc as [[q f rs l lm hm i tc co ah] ac cs rid chip]. cbn in *. by subst.
Qed.

(** X13. A page fetch that resolves appends the page to [results] and to
    [allHistoricalResults]: what was listed keeps its place, the selected
    result stays the selected one, and a valid selection stays valid. *)
Theorem onMoreResolved_appends nextOffset (r : ExecutorResult Story) (svc : Svc) :
  let svc' := onMoreResolved nextOffset r svc in
  results (state svc') = results (state svc) ++ historicalResults r
  /\ allHistoricalResults (state svc')
     = allHistoricalResults (state svc) ++ historicalResults r
  /\ hasMore (state svc') = r_hasMore r
  /\ totalCount (state svc') = historicalCount r
  /\ selectedIndex (state svc') = selectedIndex (state svc)
  /\ (forall i x, results (state svc) !! i = Some x -> results (state svc') !! i = Some x)
  /\ (forall x, getSelectedResult svc = Some x -> getSelectedResult svc' = Some x)
  /\ (selection_valid (state svc) -> selection_valid (state svc')).
Proof.
  cbn zeta. unfold onMoreResolved. cbn. repeat split.
  - intros i x Hx. by apply lookup_app_l_Some.
  - unfold getSelectedResult, at_index. cbn.
    destruct (selectedIndex (state svc) <? 0); [done|].
    intros x Hx. by apply lookup_app_l_Some.
  - unfold selection_valid. cbn.
    destruct (results (state svc)) as [|a rs] eqn:Hrs; cbn.
    + intros ->. destruct (historicalResults r); cbn; [done|lia].
    + rewrite length_app. lia.
Qed.

(** *** The calls executeSearch issues *)

(** X14. A search that starts issues the local call, and the historical call
    exactly when it was not switched off by the options, the feature is on
    and the query has at least three code units or a filter is present.
    Both calls carry the query and filters of the state and the same
    limit, offset and signal; without options the signal is that of the
    fresh controller, the limit is the page size and the offset 0. *)
Theorem executeSearch_calls options (svc : Svc) :
  nothingToSearch (state svc) = false ->
  exists svc' localCall historicalCall,
    search options svc = (svc', InFlight (requestId svc + 1) localCall historicalCall)
    /\ isLoading (state svc') = true
    /\ allHistoricalResults (state svc') = []
    /\ results (state svc') = results (state svc)
    /\ selectedIndex (state svc') = selectedIndex (state svc)
    /\ hasMore (state svc') = hasMore (state svc)
    /\ e_query localCall = query (state svc)
    /\ e_filters localCall = filters (state svc)
    /\ includeLocal (e_options localCall) = true
    /\ includeHistorical (e_options localCall) = false
    /\ (is_Some historicalCall <->
        p_includeHistorical options <> Some false
        /\ historicalSearch = true
        /\ ((3 <= String.length (query (state svc)))%nat \/ filters (state svc) <> []))
    /\ (forall call, historicalCall = Some call ->
          e_query call = e_query localCall
          /\ e_filters call = e_filters localCall
          /\ includeLocal (e_options call) = false
          /\ includeHistorical (e_options call) = true
          /\ limit (e_options call) = limit (e_options localCall)
          /\ offset (e_options call) = offset (e_options localCall)
          /\ abortSignal (e_options call) = abortSignal (e_options localCall))
    /\ (p_limit options = None -> limit (e_options localCall) = DEFAULT_SEARCH_LIMIT)
    /\ (p_offset options = None -> offset (e_options localCall) = 0)
    /\ (p_abortSignal options = None ->
        abortSignal (e_options localCall) = abortController svc'
        /\ forall c, abortController svc' = Some c -> controllers svc' !! c = Some false).
Proof.
  intros Hsome. unfold executeSearch. rewrite Hsome.
  do 3 eexists. split; [reflexivity|]. cbn -[Nat.leb Nat.ltb].
  repeat match goal with |- _ /\ _ => split end; try reflexivity.
  - match goal with |- is_Some (if ?c then _ else _) <-> _ => set (b := c) end.
    transitivity (b = true).
    { destruct b; split; try done; first [by eexists|intros [? [=]]]. }
    subst b. unfold canSearchHistorical. cbn -[Nat.leb Nat.ltb].
    rewrite !andb_true_iff, orb_true_iff, Nat.leb_le, Nat.ltb_lt.
    assert (Hinc : default true (p_includeHistorical options) = true
                   <-> p_includeHistorical options <> Some false).
    { destruct (p_includeHistorical options) as [[]|]; cbn; split; congruence. }
    assert (Hfil : (0 < List.length (filters (state svc)))%nat <-> filters (state svc) <> []).
    { destruct (filters (state svc)); cbn; split; try congruence; lia. }
    rewrite Hinc, Hfil. tauto.
  - intros call. destruct (_ && _); [|done]. intros [= <-]. by cbn.
  - by intros ->.
  - by intros ->.
  - intros ->. cbn. split; [reflexivity|]. intros c [= <-].
    rewrite lookup_app_r.
    + unfold cancelActiveSearch; cbn.
      destruct (abortController svc); [case_bool_decide|];
        rewrite ?length_insert, Nat.sub_diag; done.
    + unfold cancelActiveSearch; cbn.
      destruct (abortController svc); [case_bool_decide|]; by rewrite ?length_insert.
Qed.

End ServiceExtras.

(** ** Invariants along the runs *)

Section RunExtras.

Context {Story : Type}.
Variable title : Story -> option string.
Variable toLowerCase : string -> string.
Variable DEFAULT_SEARCH_LIMIT : Z.
Variable historicalSearch : bool.
Variable parseInput : string -> string * list SearchFilter.
Variable chipText : string -> string -> string.
Variable honoursAbort : bool.

#[local] Abbreviation Svc := (@Service Story).
#[local] Abbreviation search := (@executeSearch Story DEFAULT_SEARCH_LIMIT historicalSearch).
#[local] Abbreviation more := (@loadMoreResults Story DEFAULT_SEARCH_LIMIT).
#[local] Abbreviation stepS :=
  (@step Story title toLowerCase DEFAULT_SEARCH_LIMIT historicalSearch parseInput chipText
         honoursAbort).
#[local] Abbreviation runS :=
  (@run Story title toLowerCase DEFAULT_SEARCH_LIMIT historicalSearch parseInput chipText
        honoursAbort).
#[local] Abbreviation reachableS :=
  (@reachable Story title toLowerCase DEFAULT_SEARCH_LIMIT historicalSearch parseInput
              chipText honoursAbort).

(** A property of the empty configuration that every event keeps holds
    in every reachable configuration. *)
Lemma reachable_ind (P : @Config Story -> Prop) :
  (forall element, P (initialConfig element)) ->
  (forall ev cfg cfg', stepS ev cfg = Some cfg' -> P cfg -> P cfg') ->
  forall cfg, reachableS cfg -> P cfg.
Proof.
  intros Hinit Hstep cfg (element & events & Hrun).
  revert Hrun. generalize (Hinit element). generalize (initialConfig (Story := Story) element).
  induction events as [|ev rest IH]; intros c Hc Hrun.
  - cbn in Hrun. inversion Hrun; by subst.
  - cbn [run] in Hrun. destruct (stepS ev c) as [mid|] eqn:Hmid; [|done].
    cbn in Hrun. eapply IH; [|exact Hrun]. by eapply Hstep.
Qed.

(** Case analysis of one event: every branch of [step] that yields a
    configuration, with the equations that led there. *)
Ltac step_cases H :=
  lazymatch type of H with
  | step _ _ _ _ _ _ _ ?ev ?cfg = Some _ => destruct ev; cbn [step] in H
  end;
  repeat
    match type of H with
    | context [generations ?c !! ?g] =>
        destruct (generations c !! g) as [?gen|] eqn:?Hgen;
        cbn [mbind option_bind] in H; [|discriminate H]
    | context [moreFetches ?c !! ?m] =>
        destruct (moreFetches c !! m) as [?call|] eqn:?Hcall;
        cbn [mbind option_bind] in H; [|discriminate H]
    | (match ?x with _ => _ end) = Some _ => destruct x eqn:?; try discriminate H
    | (if ?x then _ else _) = Some _ => destruct x eqn:?; try discriminate H
    end;
  inversion H; subst; clear H; cbn [service generations moreFetches only_service] in *.

Ltac unfold_ops :=
  unfold updateFromInput, applyFilterSuggestion, handleChipDeletion, navigateSelection,
    destroy, onLocalResolved, onHistoricalResolved, onRejected, onSettled, onFailed,
    onMoreResolved, onMoreFailed in *.

Ltac split_ops :=
  repeat first
    [ progress cbn [fst snd state abortController controllers requestId chipService
                    with_state with_chipService] in *
    | match goal with
      | |- context [let '(_, _) := ?x in _] => destruct x
      | |- context [if ?b then _ else _] => destruct b
      | |- context [match ?d with up => _ | down => _ end] => destruct d
      end ].

Lemma executeSearch_heap options (svc svc' : Svc) started :
  search options svc = (svc', started) ->
  (abortController svc' = abortController svc /\ controllers svc' = controllers svc)
  \/ (abortController svc' = Some (List.length (controllers (cancelActiveSearch svc)))
      /\ controllers svc' = controllers (cancelActiveSearch svc) ++ [false]).
Proof.
  unfold executeSearch. destruct (nothingToSearch (state svc)); intros [= <- <-];
    [by left|by right].
Qed.

Lemma loadMoreResults_heap (svc svc' : Svc) call :
  more svc = (svc', call) ->
  abortController svc' = abortController svc /\ controllers svc' = controllers svc.
Proof. unfold loadMoreResults. destruct (_ || _); by intros [= <- <-]. Qed.

Lemma cancelActiveSearch_heap (svc : Svc) :
  heap_extends (controllers svc) (controllers (cancelActiveSearch svc)).
Proof.
  unfold cancelActiveSearch, heap_extends. cbn.
  destruct (abortController svc) as [c|]; [case_bool_decide as Hc|]; try done.
  rewrite length_insert. split; [done|]. intros c' Hc'.
  destruct (decide (c = c')) as [->|Hne]; [congruence|by rewrite list_lookup_insert_ne].
Qed.

(** One event never removes a controller from the heap and never turns
    an aborted controller back on. *)
Lemma step_heap_extends ev (cfg cfg' : @Config Story) :
  stepS ev cfg = Some cfg' ->
  heap_extends (controllers (service cfg)) (controllers (service cfg')).
Proof.
  intros Hstep.
  assert (Hrefl : forall h, heap_extends h h) by (by split).
  step_cases Hstep;
    try match goal with
        | H : executeSearch _ _ _ _ = _ |- _ =>
            apply executeSearch_heap in H as [[_ ->]|[_ ->]];
            [apply Hrefl|
             destruct (cancelActiveSearch_heap (service cfg)) as [Hlen Hkeep];
             split; [rewrite length_app; lia|
                     intros c Hc; apply lookup_app_l_Some; by apply Hkeep]]
        | H : loadMoreResults _ _ = _ |- _ =>
            apply loadMoreResults_heap in H as [_ ->]; apply Hrefl
        end;
    try apply cancelActiveSearch_heap;
    unfold_ops; split_ops; apply Hrefl.
Qed.

(** X15. Along every run the heap of controllers only grows, and a controller
    that has been aborted stays aborted. *)
Theorem aborted_stays_aborted events (cfg cfg' : @Config Story) :
  runS events cfg = Some cfg' ->
  heap_extends (controllers (service cfg)) (controllers (service cfg')).
Proof.
  revert cfg. induction events as [|ev rest IH]; intros cfg Hrun.
  - cbn in Hrun. inversion Hrun; subst. by split.
  - cbn [run] in Hrun. destruct (stepS ev cfg) as [mid|] eqn:Hmid; [|done].
    cbn in Hrun. destruct (step_heap_extends _ _ _ Hmid) as [Hlen Hkeep].
    destruct (IH _ Hrun) as [Hlen' Hkeep']. split; [lia|]. auto.
Qed.

Lemma step_controller_live ev (cfg cfg' : @Config Story) :
  stepS ev cfg = Some cfg' -> controller_live (service cfg) -> controller_live (service cfg').
Proof.
  intros Hstep Hlive. unfold controller_live in *.
  step_cases Hstep;
    try match goal with
        | H : executeSearch _ _ _ _ = _ |- _ =>
            apply executeSearch_heap in H as [[-> ->]|[-> ->]];
            [exact Hlive|
             intros c [= <-]; rewrite lookup_app_r by done;
             by rewrite Nat.sub_diag]
        | H : loadMoreResults _ _ = _ |- _ =>
            apply loadMoreResults_heap in H as [-> ->]; exact Hlive
        end;
    try (intros c Hc; discriminate Hc);
    unfold_ops; split_ops; exact Hlive.
Qed.

(** X16. In every reachable configuration the controller the service holds
    exists in the heap and has not been aborted. *)
Theorem held_controller_is_live (cfg : @Config Story) :
  reachableS cfg -> controller_live (service cfg).
Proof.
  apply (reachable_ind (fun cfg => controller_live (service cfg))).
  - intros element c Hc. discriminate Hc.
  - apply step_controller_live.
Qed.

Lemma step_generations_counted ev (cfg cfg' : @Config Story) :
  stepS ev cfg = Some cfg' -> generations_counted cfg -> generations_counted cfg'.
Proof.
  intros Hstep [Hcount Hids].
  destruct (step_generations title toLowerCase DEFAULT_SEARCH_LIMIT historicalSearch
              parseInput chipText honoursAbort ev cfg cfg' Hstep)
    as [[Hid Hsame]|[Hid (new & Hgens & Hnew)]].
  - assert (Hlen : List.length (generations cfg') = List.length (generations cfg)).
    { by rewrite <- (length_fmap g_requestId), Hsame, length_fmap. }
    split; [by rewrite Hid, Hlen|].
    intros g gen Hg.
    assert (H : (g_requestId <$> generations cfg) !! g = Some (g_requestId gen))
      by (by rewrite <- Hsame, list_lookup_fmap, Hg).
    rewrite list_lookup_fmap in H.
    destruct (generations cfg !! g) as [old|] eqn:Hold; [|done].
    injection H as Heq. rewrite <- Heq. by apply Hids.
  - unfold generations_counted. rewrite Hgens, length_app. cbn [List.length].
    split; [rewrite Hid, Hcount; lia|].
    intros g gen Hg. apply lookup_app_Some in Hg as [Hg|[Hge Hg]]; [by apply Hids|].
    apply list_lookup_singleton_Some in Hg as [Hz ->].
    rewrite Hnew, Hid, Hcount. lia.
Qed.

(** X17. In every reachable configuration the generation counter is the
    number of searches started, and the generations carry the ids 1, 2,
    3, ... in the order they were started. *)
Theorem generation_ids_count_up (cfg : @Config Story) :
  reachableS cfg -> generations_counted cfg.
Proof.
  apply (reachable_ind generations_counted).
  - intros element. split; [reflexivity|]. intros g gen Hg. inversion Hg.
  - apply step_generations_counted.
Qed.

Lemma step_offset ev (cfg cfg' : @Config Story) :
  stepS ev cfg = Some cfg' ->
  currentOffset (state (service cfg')) = currentOffset (state (service cfg))
  \/ currentOffset (state (service cfg')) = 0
  \/ exists call, call ∈ moreFetches cfg
                  /\ currentOffset (state (service cfg')) = offset (e_options call).
Proof.
  intros Hstep.
  step_cases Hstep;
    try match goal with
        | H : executeSearch _ _ ?o ?s = _ |- _ =>
            destruct (executeSearch_cases DEFAULT_SEARCH_LIMIT historicalSearch o s)
              as [[_ Heq]|[_ (? & ? & ? & Heq & _ & _ & _ & Hoff)]];
            rewrite Heq in H; inversion H; subst;
            first [by left|right; left; exact Hoff]
        | H : loadMoreResults _ ?s = (_, Some _) |- _ =>
            apply loadMoreResults_call in H as [_ ->]; by left
        | H : loadMoreResults _ ?s = (_, None) |- _ =>
            unfold loadMoreResults in H; destruct (_ || _); inversion H; by left
        | H : moreFetches _ !! _ = Some ?call |- context [onMoreResolved] =>
            right; right; exists call; split; [by eapply list_elem_of_lookup_2|reflexivity]
        end;
    try (right; left; reflexivity);
    unfold_ops; split_ops; first [by left | right; left; reflexivity].
Qed.

Lemma step_moreFetches ev (cfg cfg' : @Config Story) :
  stepS ev cfg = Some cfg' ->
  forall call, call ∈ moreFetches cfg' ->
    call ∈ moreFetches cfg
    \/ offset (e_options call) = currentOffset (state (service cfg)) + DEFAULT_SEARCH_LIMIT.
Proof.
  intros Hstep.
  step_cases Hstep; intros c Hc; try (by left).
  - apply elem_of_app in Hc as [Hc|Hc]; [by left|right].
    apply list_elem_of_singleton in Hc as ->.
    match goal with H : loadMoreResults _ _ = _ |- _ =>
      by apply loadMoreResults_call in H as [-> _] end.
  - left. eapply elem_of_sublist; [exact Hc|apply sublist_delete].
  - left. eapply elem_of_sublist; [exact Hc|apply sublist_delete].
Qed.

(** X18. In every reachable configuration [currentOffset] is a whole number
    of pages, and so is the offset of every page fetch in flight, which
    is at least one page. *)
Theorem currentOffset_whole_pages (cfg : @Config Story) :
  reachableS cfg -> offsets_paged DEFAULT_SEARCH_LIMIT cfg.
Proof.
  apply (reachable_ind (offsets_paged DEFAULT_SEARCH_LIMIT)).
  - intros element. split; [by exists 0%nat|]. intros call Hcall. inversion Hcall.
  - intros ev cfg0 cfg' Hstep [[k Hk] Hcalls]. split.
    + destruct (step_offset _ _ _ Hstep) as [->|[->|(call & Hcall & ->)]].
      * by exists k.
      * by exists 0%nat.
      * destruct (Hcalls call Hcall) as [k' Hk']. by exists (S k').
    + intros call Hcall.
      destruct (step_moreFetches _ _ _ Hstep call Hcall) as [Hold|Hnew]; [by apply Hcalls|].
      exists k. rewrite Hnew, Hk. lia.
Qed.

Lemma step_selectedIndex ev (cfg cfg' : @Config Story) :
  stepS ev cfg = Some cfg' ->
  0 <= selectedIndex (state (service cfg)) ->
  0 <= selectedIndex (state (service cfg')).
Proof.
  intros Hstep Hpos.
  step_cases Hstep;
    try match goal with
        | H : executeSearch _ _ _ ?s = _ |- _ =>
            unfold executeSearch in H; destruct (nothingToSearch (state s));
            inversion H; subst; exact Hpos
        | H : loadMoreResults _ ?s = _ |- _ =>
            unfold loadMoreResults in H; destruct (_ || _); inversion H; subst; exact Hpos
        | |- context [navigateSelection ?d ?s] =>
            unfold navigateSelection;
            destruct (Z.of_nat (List.length (results (state s))) =? 0) eqn:Hn;
            [exact Hpos|];
            apply Z.eqb_neq in Hn; destruct d; cbn;
            [destruct (selectedIndex (state s) =? 0) eqn:Hz; lia
            |apply Z.rem_nonneg; lia]
        end;
    try done;
    unfold_ops; split_ops; first [exact Hpos | done].
Qed.

(** X19. In every reachable configuration [selectedIndex] is not negative. *)
Theorem selectedIndex_never_negative (cfg : @Config Story) :
  reachableS cfg -> 0 <= selectedIndex (state (service cfg)).
Proof.
  apply (reachable_ind (fun cfg => 0 <= selectedIndex (state (service cfg)))).
  - intros element. done.
  - apply step_selectedIndex.
Qed.

End RunExtras.

(** ** More on the chip service *)

Section ChipExtras.

Variable chipText : string -> string -> string.

Import Caret.

(** *** Strings *)

Lemma append_nil_l (s : string) : EmptyString +:+ s = s.
Proof. reflexivity. Qed.

Lemma append_cons (c : ascii) (s t : string) : String c s +:+ t = String c (s +:+ t).
Proof. reflexivity. Qed.

Lemma append_nil_r (s : string) : s +:+ EmptyString = s.
Proof. induction s as [|c s IH]; [reflexivity|]. by rewrite append_cons, IH. Qed.

Lemma append_assoc (a b c : string) : (a +:+ b) +:+ c = a +:+ (b +:+ c).
Proof. induction a as [|x a IH]; [reflexivity|]. by rewrite !append_cons, IH. Qed.

Lemma length_append (a b : string) :
  String.length (a +:+ b) = (String.length a + String.length b)%nat.
Proof. induction a as [|x a IH]; [reflexivity|]. rewrite append_cons. cbn. by rewrite IH. Qed.

Lemma truthy_string_false (s : string) : JS.truthy_string s = false -> s = EmptyString.
Proof. by destruct s. Qed.

(** *** The canonical text as a fold from the right *)

Lemma getText_foldl (nodes : list Chip.Node) (acc : string) :
  foldl (fun text node =>
           text +:+ match node with
                    | Chip.TextNode s => s
                    | Chip.FilterChip f _ _ => f
                    | Chip.OtherElement _ => Chip.getTextFromNode node
                    end) acc nodes
  = acc +:+ canonical nodes.
Proof.
  revert acc. induction nodes as [|n nodes IH]; intros acc; cbn [foldl canonical foldr].
  - by rewrite append_nil_r.
  - rewrite IH, append_assoc. reflexivity.
Qed.

Lemma getText_canonical (nodes : list Chip.Node) (m : list (string * SearchFilter)) :
  Chip.getText (Chip.mkChipService (Some nodes) m) = canonical nodes.
Proof. unfold Chip.getText. cbn [Chip.element]. by rewrite getText_foldl. Qed.

Lemma canonical_app (a b : list Chip.Node) : canonical (a ++ b) = canonical a +:+ canonical b.
Proof.
  induction a as [|n a IH]; cbn; [reflexivity|]. unfold canonical in IH. cbn in IH.
  by rewrite IH, append_assoc.
Qed.

Lemma canonical_text_if_truthy (s : string) : canonical (Chip.text_if_truthy s) = s.
Proof.
  unfold Chip.text_if_truthy. destruct (JS.truthy_string s) eqn:Hs; cbn.
  - apply append_nil_r.
  - symmetry. by apply truthy_string_false.
Qed.

Lemma getTextFromNode_inner (children : list Chip.Node) :
  Chip.getTextFromNode (Chip.OtherElement children) = inner_text children.
Proof.
  induction children as [|c cs IH]; [reflexivity|].
  cbn in *. rewrite IH. by destruct c.
Qed.

(** *** normalize *)

Lemma Node_nested_ind (P : Chip.Node -> Prop) :
  (forall s, P (Chip.TextNode s)) ->
  (forall f t d, P (Chip.FilterChip f t d)) ->
  (forall children, Forall P children -> P (Chip.OtherElement children)) ->
  forall node, P node.
Proof.
  intros Htext Hchip Hother.
  refine (fix IH (node : Chip.Node) : P node :=
            match node with
            | Chip.TextNode s => Htext s
            | Chip.FilterChip f t d => Hchip f t d
            | Chip.OtherElement children =>
                Hother children
                  ((fix all (cs : list Chip.Node) : Forall P cs :=
                      match cs with
                      | [] => @List.Forall_nil _ P
                      | c :: cs' => @List.Forall_cons _ P c cs' (IH c) (all cs')
                      end) children)
            end).
Qed.

Lemma normalize_node_other (children : list Chip.Node) :
  Chip.normalize_node (Chip.OtherElement children)
  = Chip.OtherElement (Chip.normalize children).
Proof.
  cbn [Chip.normalize_node]. f_equal.
Qed.

Lemma canonical_merge_text (node : Chip.Node) (rest : list Chip.Node) :
  canonical (Chip.merge_text node rest) = canonical_piece node +:+ canonical rest.
Proof.
  destruct node as [s| |]; try reflexivity. cbn.
  destruct (JS.truthy_string s) eqn:Hs.
  - destruct rest as [|[s'| |] rest]; try reflexivity. cbn. by rewrite append_assoc.
  - by rewrite (truthy_string_false s Hs).
Qed.

Lemma inner_merge_text (node : Chip.Node) (rest : list Chip.Node) :
  inner_text (Chip.merge_text node rest) = inner_piece node +:+ inner_text rest.
Proof.
  destruct node as [s| |]; try reflexivity. cbn.
  destruct (JS.truthy_string s) eqn:Hs.
  - destruct rest as [|[s'| |] rest]; try reflexivity. cbn. by rewrite append_assoc.
  - by rewrite (truthy_string_false s Hs).
Qed.

Lemma chip_tokens_merge_text (node : Chip.Node) (rest : list Chip.Node) :
  chip_tokens (Chip.merge_text node rest) = chip_tokens [node] ++ chip_tokens rest.
Proof.
  destruct node as [s| |]; try reflexivity. cbn.
  destruct (JS.truthy_string s); [|reflexivity].
  by destruct rest as [|[s'| |] rest].
Qed.

Lemma normalize_node_text (node : Chip.Node) :
  inner_piece (Chip.normalize_node node) = inner_piece node
  /\ canonical_piece (Chip.normalize_node node) = canonical_piece node.
Proof.
  induction node as [s|f t d|children IH] using Node_nested_ind; try done.
  rewrite normalize_node_other.
  assert (H : inner_text (Chip.normalize children) = inner_text children).
  { induction IH as [|c cs [Hc _] _ IHcs]; [reflexivity|].
    unfold Chip.normalize. cbn [foldr]. fold (Chip.normalize cs).
    rewrite inner_merge_text, Hc, IHcs. reflexivity. }
  cbn [inner_piece canonical_piece]. by rewrite !getTextFromNode_inner.
Qed.

(** [normalize] changes neither the canonical text nor the chips. *)
Lemma normalize_canonical (nodes : list Chip.Node) :
  canonical (Chip.normalize nodes) = canonical nodes.
Proof.
  induction nodes as [|n nodes IH]; [reflexivity|].
  unfold Chip.normalize. cbn [foldr]. fold (Chip.normalize nodes).
  rewrite canonical_merge_text, IH. by destruct (normalize_node_text n) as [_ ->].
Qed.

Lemma normalize_chip_tokens (nodes : list Chip.Node) :
  chip_tokens (Chip.normalize nodes) = chip_tokens nodes.
Proof.
  induction nodes as [|n nodes IH]; [reflexivity|].
  unfold Chip.normalize. cbn [foldr]. fold (Chip.normalize nodes).
  rewrite chip_tokens_merge_text, IH. by destruct n.
Qed.

(** *** Text in, text out *)

(** X20. On a mounted element [setText] followed by [getText] gives the text
    back; no chip is left and the map of applied filters is not touched. *)
Theorem setText_getText (text : string) (cs : Chip.ChipService) :
  is_Some (Chip.element cs) ->
  Chip.getText (setText text cs) = text
  /\ (exists nodes, Chip.element (setText text cs) = Some nodes /\ chip_tokens nodes = [])
  /\ Chip.appliedFilters (setText text cs) = Chip.appliedFilters cs.
Proof.
  intros [nodes Hnodes]. unfold setText. rewrite Hnodes.
  rewrite getText_canonical, canonical_text_if_truthy. split; [done|]. split; [|done].
  eexists. split; [reflexivity|]. apply chip_tokens_text_if_truthy.
Qed.

(** X21. With no element mounted the chip service does nothing: no suggestion
    is applied, no chip is deleted, the text is empty, the caret is at 0,
    and neither [clear] nor [setText] changes anything, so the applied
    filters survive a [clear]. *)
Theorem unmounted_chip_service (cs : Chip.ChipService) :
  Chip.element cs = None ->
  (forall suggestion context,
     Chip.applyFilterSuggestion chipText suggestion context cs = (cs, false))
  /\ (forall selection,
        Chip.handleBackspaceChipDeletion selection cs = (cs, Chip.mkDeletion false None))
  /\ Chip.getText cs = EmptyString
  /\ (forall selection, getCursorPosition cs selection = 0%nat)
  /\ Chip.clear cs = cs
  /\ (forall text, setText text cs = cs).
Proof.
  intros Hnone.
  unfold Chip.applyFilterSuggestion, Chip.handleBackspaceChipDeletion, Chip.getText,
    getCursorPosition, Chip.clear, setText.
  rewrite Hnone. repeat split.
Qed.

(** X22. Accepting a value suggestion rewrites the canonical text to the text
    before the match, the token, one space, and the text after the match
    unless that is all whitespace. *)
Theorem getText_after_value_suggestion (suggestion : FilterSuggestion)
    (context : FilterContext) (cs : Chip.ChipService) nodes :
  Chip.element cs = Some nodes ->
  isFilterType suggestion = false ->
  let content := Chip.elementTextContent chipText nodes in
  let beforeFilter := JS.substring_to (startIndex context) content in
  let afterFilter :=
    JS.substring_from (startIndex context + String.length (fullMatch context)) content in
  Chip.getText (fst (Chip.applyFilterSuggestion chipText suggestion context cs))
  = beforeFilter
    +:+ Chip.completedFilter (c_type context) (s_value suggestion)
    +:+ " "
    +:+ (if JS.trim_truthy afterFilter then afterFilter else EmptyString).
Proof.
  intros Hnodes Hvalue. cbn zeta.
  unfold Chip.applyFilterSuggestion, Chip.replacePartialTextWithChip.
  rewrite Hnodes, Hvalue. cbn [fst]. rewrite getText_canonical.
  rewrite canonical_app, canonical_text_if_truthy. f_equal.
  cbn [app canonical foldr canonical_piece Chip.createChip]. f_equal. f_equal.
  destruct (JS.trim_truthy _); cbn; [apply append_nil_r|reflexivity].
Qed.

(** *** The caret *)

Lemma find_text_walk (nodes : list Chip.Node) (index cur offset : nat) :
  nodes <> [] ->
  text_only nodes ->
  (cur <= offset <= cur + String.length (canonical nodes))%nat ->
  exists range container,
    find_text nodes index cur offset = Some range
    /\ holder (Chip.startContainer range) = Some container
    /\ (index <= container)%nat
    /\ walk_to nodes index (Some container) (Chip.startOffset range) cur = offset.
Proof.
  revert index cur. induction nodes as [|n nodes IH]; intros index cur Hne Htext Hrange;
    [done|].
  inversion_clear Htext as [|? ? Hn Hrest]. destruct n as [s| |]; try done.
  cbn [find_text canonical foldr canonical_piece] in *. rewrite length_append in Hrange.
  destruct (Nat.leb_spec offset (cur + String.length s)) as [Hle|Hgt].
  - eexists _, index. split; [reflexivity|]. split; [reflexivity|].
    cbn [walk_to Chip.startOffset]. rewrite bool_decide_eq_true_2 by done. split; lia.
  - destruct nodes as [|n' nodes'].
    + cbn in Hrange. lia.
    + destruct (IH (S index) (cur + String.length s)%nat)
        as (range & container & Hfind & Hholder & Hidx & Hwalk);
        [done|done|fold (canonical (n' :: nodes')) in Hrange; lia|].
      exists range, container. split; [exact Hfind|]. split; [exact Hholder|]. split; [lia|].
      cbn [walk_to]. rewrite bool_decide_eq_false_2 by (intros [= ->]; lia).
      exact Hwalk.
Qed.

Lemma caret_round_trip (offset : nat) (cs : Chip.ChipService) nodes selection :
  Chip.element cs = Some nodes ->
  text_only nodes ->
  (offset <= String.length (Chip.getText cs))%nat ->
  getCursorPosition cs (setCursorPosition offset cs selection) = offset.
Proof.
  intros Hnodes Htext Hoff. destruct cs as [el m]. cbn in Hnodes. subst el.
  rewrite getText_canonical in Hoff.
  unfold getCursorPosition, setCursorPosition. cbn [Chip.element].
  destruct nodes as [|n nodes].
  - cbn in *. destruct selection; cbn; lia.
  - destruct (find_text_walk (n :: nodes) 0 0 offset) as (range & container & -> & -> & _ & Hwalk);
      [done|done|lia|]. exact Hwalk.
Qed.

(** X23. On an element that holds text nodes only, putting the caret at an
    offset within the text and reading the caret position gives the
    offset back. *)
Theorem cursor_position_round_trip (offset : nat) (cs : Chip.ChipService) nodes selection :
  Chip.element cs = Some nodes ->
  text_only nodes ->
  (offset <= String.length (Chip.getText cs))%nat ->
  getCursorPosition cs (setCursorPosition offset cs selection) = offset.
Proof. by apply caret_round_trip. Qed.

Lemma text_only_text_if_truthy (s : string) : text_only (Chip.text_if_truthy s).
Proof.
  unfold Chip.text_if_truthy, text_only. destruct (JS.truthy_string s); by repeat constructor.
Qed.

(** X24. Accepting a filter-name suggestion replaces the match by the name as
    plain text: no chip is made, the applied filters are untouched, the
    canonical text is the text before the match, the name and the text
    after the match, and the caret reads as standing right after the
    name. *)
Theorem filter_type_suggestion_inserts_text (suggestion : FilterSuggestion)
    (context : FilterContext) (cs : Chip.ChipService) nodes selection :
  Chip.element cs = Some nodes ->
  isFilterType suggestion = true ->
  let content := Chip.elementTextContent chipText nodes in
  let beforeFilter := JS.substring_to (startIndex context) content in
  let afterFilter :=
    JS.substring_from (startIndex context + String.length (fullMatch context)) content in
  exists cs' nodes',
    Chip.applyFilterSuggestion chipText suggestion context cs = (cs', true)
    /\ Chip.element cs' = Some nodes'
    /\ chip_tokens nodes' = []
    /\ Chip.appliedFilters cs' = Chip.appliedFilters cs
    /\ Chip.getText cs' = beforeFilter +:+ s_value suggestion +:+ afterFilter
    /\ getCursorPosition cs' (selectionAfterApply chipText suggestion context cs selection)
       = (String.length beforeFilter + String.length (s_value suggestion))%nat.
Proof.
  intros Hnodes Hname. cbn zeta.
  unfold selectionAfterApply, Chip.applyFilterSuggestion, Chip.replacePartialText.
  rewrite Hnodes, Hname. cbn [fst].
  set (beforeFilter := JS.substring_to _ _).
  set (afterFilter := JS.substring_from _ _).
  set (nodes' := Chip.text_if_truthy beforeFilter ++ [Chip.TextNode (s_value suggestion)]
                 ++ Chip.text_if_truthy afterFilter).
  assert (Hcanon : canonical nodes' = beforeFilter +:+ s_value suggestion +:+ afterFilter).
  { unfold nodes'. rewrite !canonical_app, !canonical_text_if_truthy. cbn.
    by rewrite append_nil_r. }
  assert (Htext : text_only nodes').
  { unfold nodes', text_only. rewrite !Forall_app. repeat split.
    - apply text_only_text_if_truthy.
    - by repeat constructor.
    - apply text_only_text_if_truthy. }
  exists (Chip.mkChipService (Some nodes') (Chip.appliedFilters cs)), nodes'.
  repeat split.
  - unfold nodes', chip_tokens. rewrite !omap_app.
    fold (chip_tokens (Chip.text_if_truthy beforeFilter)).
    fold (chip_tokens (Chip.text_if_truthy afterFilter)).
    by rewrite !chip_tokens_text_if_truthy.
  - by rewrite getText_canonical.
  - apply (caret_round_trip _ _ nodes'); [reflexivity|exact Htext|].
    rewrite getText_canonical, Hcanon, !length_append. lia.
Qed.

(** *** The map of applied filters *)

Lemma keys_map_set (k : string) (v : SearchFilter) (m : list (string * SearchFilter)) :
  forall k', k' ∈ keys (Chip.map_set k v m) <-> k' = k \/ k' ∈ keys m.
Proof.
  clear chipText.
  unfold keys. induction m as [|[k0 v0] m IH]; intros k'; cbn.
  - rewrite list_elem_of_singleton. split; [by left|]. intros [->|H]; [done|inversion H].
  - destruct (String.eqb_spec k0 k) as [->|Hne]; cbn; rewrite !elem_of_cons.
    + tauto.
    + rewrite IH. tauto.
Qed.

Lemma NoDup_keys_map_set (k : string) (v : SearchFilter) (m : list (string * SearchFilter)) :
  NoDup (keys m) -> NoDup (keys (Chip.map_set k v m)).
Proof.
  clear chipText.
  unfold keys. induction m as [|[k0 v0] m IH]; cbn; intros Hnd.
  - apply NoDup_singleton.
  - inversion_clear Hnd as [|? ? Hnotin Hnd'].
    destruct (String.eqb_spec k0 k) as [->|Hne]; cbn; apply NoDup_cons_2; trivial.
    + intros Hin. apply (keys_map_set k v m) in Hin as [->|Hin]; [done|]. by apply Hnotin.
    + by apply IH.
Qed.

Lemma keys_map_delete (k : string) (m : list (string * SearchFilter)) :
  forall k', k' ∈ keys (Chip.map_delete k m) <-> k' <> k /\ k' ∈ keys m.
Proof.
  clear chipText.
  unfold keys, Chip.map_delete. induction m as [|[k0 v0] m IH]; intros k'; cbn.
  - split; [intros H; inversion H|intros [_ H]; inversion H].
  - destruct (String.eqb_spec k0 k) as [->|Hne]; cbn; rewrite ?elem_of_cons, IH.
    + split; [tauto|]. intros [Hne [->|H]]; done.
    + split; [intros [->|[? ?]]; auto|tauto].
Qed.

Lemma NoDup_keys_map_delete (k : string) (m : list (string * SearchFilter)) :
  NoDup (keys m) -> NoDup (keys (Chip.map_delete k m)).
Proof.
  clear chipText.
  unfold keys, Chip.map_delete. induction m as [|[k0 v0] m IH]; cbn; intros Hnd;
    [apply NoDup_nil_2|].
  inversion_clear Hnd as [|? ? Hnotin Hnd'].
  destruct (String.eqb_spec k0 k) as [->|Hne]; cbn; [by apply IH|].
  apply NoDup_cons_2; [|by apply IH].
  intros Hin. apply (keys_map_delete k m) in Hin as [_ Hin]. by apply Hnotin.
Qed.

Lemma map_delete_map_set (k : string) (v : SearchFilter) (m : list (string * SearchFilter)) :
  Chip.map_delete k (Chip.map_set k v m) = Chip.map_delete k m.
Proof.
  clear chipText.
  unfold Chip.map_delete. induction m as [|[k0 v0] m IH]; cbn.
  - by rewrite String.eqb_refl.
  - destruct (String.eqb_spec k0 k) as [->|Hne]; cbn.
    + by rewrite String.eqb_refl.
    + apply String.eqb_neq in Hne. by rewrite Hne, IH.
Qed.

(** X25. The map of applied filters behaves as a map: setting a key makes it
    present with the new filter, leaves the other keys as they are and
    never duplicates a key; deleting a key removes it and only it. *)
Theorem applied_filters_map_laws (k : string) (v : SearchFilter)
    (m : list (string * SearchFilter)) :
  NoDup (keys m) ->
  NoDup (keys (Chip.map_set k v m))
  /\ (forall v', (k, v') ∈ Chip.map_set k v m <-> v' = v)
  /\ (forall k' v', k' <> k -> ((k', v') ∈ Chip.map_set k v m <-> (k', v') ∈ m))
  /\ NoDup (keys (Chip.map_delete k m))
  /\ (forall v', (k, v') ∉ Chip.map_delete k m)
  /\ (forall k' v', k' <> k -> ((k', v') ∈ Chip.map_delete k m <-> (k', v') ∈ m)).
Proof.
  clear chipText.
  intros Hnd. split; [by apply NoDup_keys_map_set|].
  split; [|split; [|split; [by apply NoDup_keys_map_delete|split]]].
  - intros v'. split; [|intros ->; apply map_set_elem].
    revert Hnd. unfold keys. induction m as [|[k0 v0] m IH]; cbn; intros Hnd Hin.
    + apply list_elem_of_singleton in Hin. congruence.
    + inversion_clear Hnd as [|? ? Hnotin Hnd'].
      destruct (String.eqb_spec k0 k) as [->|Hne]; apply elem_of_cons in Hin as [Hin|Hin].
      * congruence.
      * exfalso. apply Hnotin. apply list_elem_of_fmap. by exists (k, v').
      * congruence.
      * by apply IH.
  - intros k' v' Hne. induction m as [|[k0 v0] m IH]; cbn.
    + rewrite list_elem_of_singleton. split; [congruence|intros H; inversion H].
    + unfold keys in Hnd. cbn in Hnd. inversion_clear Hnd as [|? ? Hnotin Hnd'].
      destruct (String.eqb_spec k0 k) as [->|Hne0]; rewrite !elem_of_cons.
      * split; (intros [H|H]; [congruence|by right]).
      * rewrite IH by done. tauto.
  - intros v' Hin.
    assert (H : k ∈ keys (Chip.map_delete k m)).
    { unfold keys. apply list_elem_of_fmap. by exists (k, v'). }
    apply keys_map_delete in H as [H _]. done.
  - intros k' v' Hne. unfold Chip.map_delete.
    rewrite list_elem_of_In, List.filter_In, <- list_elem_of_In. cbn.
    rewrite negb_true_iff, String.eqb_neq. tauto.
Qed.

(** *** Deletion by backspace *)

Lemma inner_text_app (a b : list Chip.Node) :
  inner_text (a ++ b) = inner_text a +:+ inner_text b.
Proof.
  induction a as [|n a IH]; cbn; [reflexivity|]. unfold inner_text in IH. cbn in IH.
  by rewrite IH, append_assoc.
Qed.

(** The text [getTextFromNode] reads is blind to the chip that
    [chip_before] removes, at whatever depth. *)
Lemma chip_before_inner (path : list nat) :
  forall nodes f nodes',
    Chip.chip_before nodes path = Some (f, nodes') -> inner_text nodes' = inner_text nodes.
Proof.
  induction path as [|i rest IH]; intros nodes f nodes' H; [done|].
  cbn [Chip.chip_before] in H. destruct rest as [|j rest].
  - destruct (nodes !! i) as [[s| |]|] eqn:Hi; try done.
    destruct i as [|previous]; [done|].
    destruct (nodes !! previous) as [[|f0 t d|]|] eqn:Hp; try done.
    injection H as <- <-.
    rewrite delete_take_drop. rewrite <- (take_drop_middle nodes previous _ Hp) at 3.
    by rewrite !inner_text_app.
  - destruct (nodes !! i) as [[| |children]|] eqn:Hi; try done.
    destruct (Chip.chip_before children (j :: rest)) as [[f0 children']|] eqn:Hc; [|done].
    injection H as <- <-.
    rewrite insert_take_drop by (by eapply lookup_lt_Some).
    rewrite <- (take_drop_middle nodes i _ Hi) at 3.
    rewrite !inner_text_app. cbn [inner_text foldr inner_piece].
    rewrite !getTextFromNode_inner. fold (inner_text (drop (S i) nodes)).
    by rewrite (IH _ _ _ Hc).
Qed.

(** Below the top level the removal changes neither the canonical text
    nor the chips that are children of the element. *)
Lemma chip_before_nested (i j : nat) (rest : list nat) (nodes nodes' : list Chip.Node) f :
  Chip.chip_before nodes (i :: j :: rest) = Some (f, nodes') ->
  exists children children',
    nodes !! i = Some (Chip.OtherElement children)
    /\ Chip.chip_before children (j :: rest) = Some (f, children')
    /\ nodes' = <[i := Chip.OtherElement children']> nodes
    /\ canonical nodes' = canonical nodes
    /\ chip_tokens nodes' = chip_tokens nodes.
Proof.
  intros H. cbn [Chip.chip_before] in H.
  destruct (nodes !! i) as [[| |children]|] eqn:Hi; try done.
  change (match rest with
          | [] => _
          | _ :: _ => _
          end) with (Chip.chip_before children (j :: rest)) in H.
  destruct (Chip.chip_before children (j :: rest)) as [[f0 children']|] eqn:Hc; [|done].
  injection H as <- <-. exists children, children'. repeat split; trivial.
  - rewrite insert_take_drop by (by eapply lookup_lt_Some).
    rewrite <- (take_drop_middle nodes i _ Hi) at 3.
    rewrite !canonical_app. cbn [canonical foldr canonical_piece].
    rewrite !getTextFromNode_inner. fold (canonical (drop (S i) nodes)).
    by rewrite (chip_before_inner _ _ _ _ Hc).
  - rewrite insert_take_drop by (by eapply lookup_lt_Some).
    rewrite <- (take_drop_middle nodes i _ Hi) at 3.
    unfold chip_tokens. by rewrite !omap_app.
Qed.

(** X26. A backspace either leaves the chip service exactly as it was, or it
    found the caret collapsed at offset 0 of a text node that directly
    follows a chip; then the call reports the chip's token and the
    token's key is gone from the applied filters. When the text node is a
    child of the element, that chip and only that chip is removed from
    the children and the canonical text loses exactly its token. When
    the text node is nested in another element, the chip is removed there
    and the canonical text and the chips among the children stay as they
    were; when it lies elsewhere in the document, the element is only
    normalized and its canonical text and chips stay as they were. *)
Theorem backspace_deletes_one_chip (selection : option Chip.Range) (cs : Chip.ChipService) :
  let cs' := fst (Chip.handleBackspaceChipDeletion selection cs) in
  let result := snd (Chip.handleBackspaceChipDeletion selection cs) in
  (Chip.deleted result = false /\ Chip.filterText result = None /\ cs' = cs)
  \/ (exists nodes range f,
        Chip.deleted result = true
        /\ Chip.filterText result = Some f
        /\ Chip.element cs = Some nodes
        /\ selection = Some range
        /\ Chip.collapsed range = true
        /\ Chip.startOffset range = 0%nat
        /\ Chip.appliedFilters cs' = Chip.map_delete f (Chip.appliedFilters cs)
        /\ (f ∉ keys (Chip.appliedFilters cs'))
        /\ ((exists previous t d s,
               Chip.startContainer range = Chip.Within [S previous]
               /\ nodes !! previous = Some (Chip.FilterChip f t d)
               /\ nodes !! S previous = Some (Chip.TextNode s)
               /\ Chip.element cs' = Some (Chip.normalize (delete previous nodes))
               /\ chip_tokens (Chip.normalize (delete previous nodes))
                  = chip_tokens (take previous nodes) ++ chip_tokens (drop (S previous) nodes)
               /\ Chip.getText cs'
                  = canonical (take previous nodes) +:+ canonical (drop (S previous) nodes)
               /\ Chip.getText cs
                  = canonical (take previous nodes) +:+ f
                    +:+ canonical (drop (S previous) nodes))
            \/ (exists i j rest children children',
                  Chip.startContainer range = Chip.Within (i :: j :: rest)
                  /\ nodes !! i = Some (Chip.OtherElement children)
                  /\ Chip.chip_before children (j :: rest) = Some (f, children')
                  /\ Chip.element cs'
                     = Some (Chip.normalize (<[i := Chip.OtherElement children']> nodes))
                  /\ chip_tokens (Chip.normalize (<[i := Chip.OtherElement children']> nodes))
                     = chip_tokens nodes
                  /\ Chip.getText cs' = Chip.getText cs)
            \/ (Chip.startContainer range = Chip.Elsewhere true (Some f)
                /\ Chip.element cs' = Some (Chip.normalize nodes)
                /\ chip_tokens (Chip.normalize nodes) = chip_tokens nodes
                /\ Chip.getText cs' = Chip.getText cs))).
Proof.
  clear chipText.
  cbn zeta. unfold Chip.handleBackspaceChipDeletion.
  destruct (Chip.element cs) as [nodes|] eqn:Hnodes; [|by left].
  destruct selection as [range|]; [|by left].
  destruct (Chip.collapsed range) eqn:Hcol; [|by left]. cbn [andb].
  destruct (Nat.eqb_spec (Chip.startOffset range) 0) as [Hoff|]; [|by left].
  assert (Hkey : forall f m, f ∉ keys (Chip.map_delete f m)).
  { intros f m Hin. by apply keys_map_delete in Hin as [Hne _]. }
  assert (Htext : Chip.getText cs = canonical nodes).
  { destruct cs as [el m]. cbn in Hnodes. subst el. apply getText_canonical. }
  destruct (Chip.startContainer range) as [path|[|] [f|]] eqn:Hcont; try by left.
  - destruct (Chip.chip_before nodes path) as [[f nodes']|] eqn:Hbefore; [|by left].
    right. exists nodes, range, f.
    cbn [fst snd Chip.deleted Chip.filterText Chip.element Chip.appliedFilters].
    do 8 (split; [by auto|]).
    destruct path as [|i [|j rest]]; [done| |].
    + left. cbn [Chip.chip_before] in Hbefore.
      destruct (nodes !! i) as [[s| |]|] eqn:Hi; try done.
      destruct i as [|previous]; [done|].
      destruct (nodes !! previous) as [[|f0 t d|]|] eqn:Hprev; try done.
      injection Hbefore as <- <-. exists previous, t, d, s.
      assert (Hdel : delete previous nodes = take previous nodes ++ drop (S previous) nodes).
      { apply delete_take_drop. }
      repeat split; trivial.
      * rewrite normalize_chip_tokens, Hdel. unfold chip_tokens. by rewrite omap_app.
      * by rewrite getText_canonical, normalize_canonical, Hdel, canonical_app.
      * rewrite Htext, <- (take_drop_middle nodes previous _ Hprev) at 1.
        by rewrite canonical_app.
    + right. left.
      destruct (chip_before_nested _ _ _ _ _ _ Hbefore)
        as (children & children' & Hi & Hc & -> & Hcanon & Htokens).
      exists i, j, rest, children, children'. repeat split; trivial.
      * by rewrite normalize_chip_tokens.
      * by rewrite getText_canonical, normalize_canonical, Htext.
  - right. exists nodes, range, f.
    cbn [fst snd Chip.deleted Chip.filterText Chip.element Chip.appliedFilters].
    do 8 (split; [by auto|]). right. right. repeat split; trivial.
    + apply normalize_chip_tokens.
    + by rewrite getText_canonical, normalize_canonical, Htext.
Qed.

(** X27. A value suggestion followed by a backspace at the caret it left: the
    caret stands at offset 0 of the text node after the new chip, so the
    backspace deletes that chip; the canonical text is what the
    suggestion produced without the token, no chip is left, and the
    filter is no longer among the applied filters. *)
Theorem value_suggestion_then_backspace (suggestion : FilterSuggestion)
    (context : FilterContext) (cs : Chip.ChipService) nodes selection :
  Chip.element cs = Some nodes ->
  isFilterType suggestion = false ->
  let content := Chip.elementTextContent chipText nodes in
  let beforeFilter := JS.substring_to (startIndex context) content in
  let afterFilter :=
    JS.substring_from (startIndex context + String.length (fullMatch context)) content in
  let token := Chip.completedFilter (c_type context) (s_value suggestion) in
  let cs' := fst (Chip.applyFilterSuggestion chipText suggestion context cs) in
  let caret := selectionAfterApply chipText suggestion context cs selection in
  let cs'' := fst (Chip.handleBackspaceChipDeletion caret cs') in
  snd (Chip.handleBackspaceChipDeletion caret cs') = Chip.mkDeletion true (Some token)
  /\ Chip.getText cs''
     = beforeFilter +:+ " "
       +:+ (if JS.trim_truthy afterFilter then afterFilter else EmptyString)
  /\ (exists nodes'', Chip.element cs'' = Some nodes'' /\ chip_tokens nodes'' = [])
  /\ Chip.appliedFilters cs'' = Chip.map_delete token (Chip.appliedFilters cs)
  /\ token ∉ keys (Chip.appliedFilters cs'').
Proof.
  intros Hnodes Hvalue. cbn zeta.
  unfold selectionAfterApply, Chip.applyFilterSuggestion, Chip.replacePartialTextWithChip,
    setCursorAfterChip.
  rewrite Hnodes, Hvalue. cbn [fst Chip.element].
  set (beforeFilter := JS.substring_to _ _).
  set (afterFilter := JS.substring_from _ _).
  set (token := Chip.completedFilter _ _).
  set (tail := if JS.trim_truthy afterFilter then [Chip.TextNode afterFilter] else []).
  set (tracked := if String.eqb _ _ then _ else _).
  assert (Htracked : Chip.map_delete token tracked
                     = Chip.map_delete token (Chip.appliedFilters cs)).
  { unfold tracked. destruct (String.eqb _ _); [reflexivity|].
    cbn. apply map_delete_map_set. }
  assert (Hcases : (beforeFilter = EmptyString /\ Chip.text_if_truthy beforeFilter = [])
                   \/ Chip.text_if_truthy beforeFilter = [Chip.TextNode beforeFilter]).
  { unfold Chip.text_if_truthy. destruct (JS.truthy_string beforeFilter) eqn:Hb;
      [by right|left]. split; [by apply truthy_string_false|done]. }
  assert (Htail : canonical tail
                  = if JS.trim_truthy afterFilter then afterFilter else EmptyString).
  { unfold tail. destruct (JS.trim_truthy afterFilter); cbn; [apply append_nil_r|done]. }
  assert (Htokens : chip_tokens tail = []).
  { unfold tail. by destruct (JS.trim_truthy afterFilter). }
  destruct Hcases as [[Hempty ->]| ->];
    cbn -[Chip.normalize Chip.map_delete Chip.getText chip_tokens].
  - rewrite Htracked. repeat split.
    + rewrite getText_canonical, normalize_canonical. cbn. fold (canonical tail).
      by rewrite Hempty, Htail.
    + eexists. split; [reflexivity|]. rewrite normalize_chip_tokens. exact Htokens.
    + intros Hin. by apply keys_map_delete in Hin as [Hne _].
  - rewrite Htracked. repeat split.
    + rewrite getText_canonical, normalize_canonical. cbn. fold (canonical tail).
      by rewrite Htail.
    + eexists. split; [reflexivity|]. rewrite normalize_chip_tokens. exact Htokens.
    + intros Hin. by apply keys_map_delete in Hin as [Hne _].
Qed.

End ChipExtras.

(** ** The search service and its chips *)

Section ServiceChipExtras.

Context {Story : Type}.
Variable DEFAULT_SEARCH_LIMIT : Z.
Variable historicalSearch : bool.
Variable parseInput : string -> string * list SearchFilter.
Variable chipText : string -> string -> string.

#[local] Abbreviation Svc := (@Service Story).

Lemma with_chipService_same (svc : Svc) : with_chipService (chipService svc) svc = svc.
Proof. by destruct svc. Qed.

(** X28. [handleChipDeletion] either reports false and leaves the service as
    it was, or reports true and leaves query and filters as the parser
    reads them from the canonical text after the deletion; the filter it
    removed by hand beforehand leaves no trace, and no other field of the
    state changes. *)
Theorem handleChipDeletion_reparses (selection : option Chip.Range) (svc : Svc) :
  let svc' := fst (handleChipDeletion parseInput selection svc) in
  let parsed := parseInput (Chip.getText (chipService svc')) in
  (snd (handleChipDeletion parseInput selection svc) = false /\ svc' = svc)
  \/ (snd (handleChipDeletion parseInput selection svc) = true
      /\ chipService svc' = fst (Chip.handleBackspaceChipDeletion selection (chipService svc))
      /\ state svc' = set_filters (snd parsed) (set_query (fst parsed) (state svc))
      /\ requestId svc' = requestId svc
      /\ abortController svc' = abortController svc
      /\ controllers svc' = controllers svc).
Proof.
  cbn zeta. unfold handleChipDeletion.
  destruct (Chip.handleBackspaceChipDeletion selection (chipService svc)) as [cs result] eqn:Hdel.
  destruct (Chip.deleted result) eqn:Hdeleted.
  - right. cbn [fst snd]. destruct (JS.truthy (Chip.filterText result)); by cbn.
  - left. cbn [fst snd]. split; [done|].
    assert (Hcs : cs = chipService svc).
    { unfold Chip.handleBackspaceChipDeletion in Hdel.
      repeat match type of Hdel with
             | (match ?x with _ => _ end) = _ => destruct x
             | (if ?x then _ else _) = _ => destruct x
             | (let _ := _ in _) = _ => cbn zeta in Hdel
             end; inversion Hdel; subst; try done.
      all: by cbn in Hdeleted. }
    rewrite Hcs. apply with_chipService_same.
Qed.

(** X29. Accepting a value suggestion for a real filter type on a mounted
    element succeeds; the filters of the state become the applied filters
    of the chip service, among them the accepted one, marked valid; so the
    next [executeSearch] does not take the early return but starts a
    generation. *)
Theorem value_suggestion_enables_search (suggestion : FilterSuggestion)
    (context : FilterContext) (svc : Svc) :
  is_Some (Chip.element (chipService svc)) ->
  isFilterType suggestion = false ->
  String.eqb (c_type context) "suggestion" = false ->
  let svc' := fst (applyFilterSuggestion parseInput chipText suggestion context svc) in
  snd (applyFilterSuggestion parseInput chipText suggestion context svc) = true
  /\ filters (state svc') = Chip.getAppliedFilters (chipService svc')
  /\ mkFilter (c_type context) (s_value suggestion)
       (Chip.or_else (s_display suggestion) (s_value suggestion)) true
     ∈ filters (state svc')
  /\ query (state svc') = fst (parseInput (Chip.getText (chipService svc')))
  /\ nothingToSearch (state svc') = false
  /\ forall options,
       exists localCall historicalCall,
         snd (executeSearch DEFAULT_SEARCH_LIMIT historicalSearch options svc')
         = InFlight (requestId svc + 1) localCall historicalCall.
Proof.
  intros [nodes Hnodes] Hvalue Hty. cbn zeta.
  unfold applyFilterSuggestion, Chip.applyFilterSuggestion, Chip.replacePartialTextWithChip.
  rewrite Hnodes, Hvalue, Hty. unfold Chip.createChip. cbv beta iota zeta.
  set (token := Chip.completedFilter _ _).
  set (filter := mkFilter _ _ _ _).
  set (m := Chip.map_set token filter (Chip.appliedFilters (chipService svc))).
  set (cs' := Chip.mkChipService _ m).
  assert (Hin : filter ∈ Chip.getAppliedFilters cs').
  { unfold Chip.getAppliedFilters. cbn. apply list_elem_of_fmap.
    exists (token, filter). split; [done|]. apply map_set_elem. }
  assert (Happlied : match Chip.getAppliedFilters cs' with
                     | [] => snd (parseInput (Chip.getText cs'))
                     | _ => Chip.getAppliedFilters cs'
                     end = Chip.getAppliedFilters cs').
  { destruct (Chip.getAppliedFilters cs'); [inversion Hin|done]. }
  assert (Hvalid : existsb isValid (Chip.getAppliedFilters cs') = true).
  { apply existsb_exists. exists filter. split; [by apply list_elem_of_In|done]. }
  cbn [fst snd state filters query with_state with_chipService chipService set_filters set_query].
  rewrite Happlied. repeat split; trivial.
  - unfold nothingToSearch. cbn [filters query set_filters set_query].
    by rewrite Hvalid, andb_false_r.
  - intros options. unfold executeSearch, nothingToSearch. cbn [state filters query with_state
      with_chipService set_filters set_query].
    rewrite Hvalid, andb_false_r. cbn [snd]. by do 2 eexists.
Qed.

End ServiceChipExtras.

(** ** The further properties on concrete inputs *)

Section ExtraConcrete.

Import Sample MoreSamples Caret.

Lemma combineResults_sound_and_covering_witness :
  exists r,
    r ∈ combineResults item_title JS.lower [local "Alpha" 1] [historical "alpha" 2]
    /\ lowerTitle item_title JS.lower r = lowerTitle item_title JS.lower (historical "alpha" 2).
Proof.
  apply (proj2 (proj2 (combineResults_sound_and_covering item_title JS.lower
                         [local "Alpha" 1] [historical "alpha" 2]))).
  - apply list_elem_of_singleton. reflexivity.
  - reflexivity.
Defined.

Lemma combineResults_without_collisions_witness :
  combineResults item_title JS.lower
    [local "Alpha" 1] [historical "Beta" 2; historical "Gamma" 3]
  = [local "Alpha" 1] ++ [historical "Beta" 2; historical "Gamma" 3].
Proof.
  apply combineResults_without_collisions.
  - repeat constructor.
  - apply (bool_decide_unpack _). vm_compute. exact I.
  - intros l h Hl Hh. apply list_elem_of_singleton in Hl as ->.
    apply elem_of_cons in Hh as [->|Hh]; [discriminate|].
    apply list_elem_of_singleton in Hh as ->. discriminate.
Defined.

Lemma navigateSelection_wraps_witness :
  selectedIndex (state (navigateSelection down listed)) = 0.
Proof.
  destruct (proj2 (navigateSelection_wraps down listed)) as [_ Hnext]; [cbn; lia|].
  rewrite Hnext. reflexivity.
Defined.

Lemma navigateSelection_round_trip_witness :
  navigateSelection up (navigateSelection down listed) = listed.
Proof. apply (proj1 (navigateSelection_round_trip listed ltac:(cbn; lia))). Defined.

Lemma navigateSelection_full_cycle_witness : press_down 5 listed = listed.
Proof. apply (navigateSelection_full_cycle listed). cbn. lia. Defined.

Lemma onHistoricalResolved_twice_witness :
  onHistoricalResolved item_title JS.lower 1 secondPageReply
    (onHistoricalResolved item_title JS.lower 1 secondPageReply paging)
  = onHistoricalResolved item_title JS.lower 1 secondPageReply paging.
Proof.
  apply (onHistoricalResolved_twice item_title JS.lower secondPageReply paging).
  repeat constructor.
Defined.

Lemma loadMoreResults_not_reentrant_witness :
  loadMoreResults limit (fst (loadMoreResults limit paging))
  = (fst (loadMoreResults limit paging), None).
Proof.
  destruct (loadMoreResults limit paging) as [svc' [call|]] eqn:Hmore;
    [|vm_compute in Hmore; discriminate Hmore].
  apply (loadMoreResults_not_reentrant limit paging svc' call Hmore).
Defined.

Lemma loadMoreResults_failure_restores_witness :
  onMoreFailed (fst (loadMoreResults limit paging)) = paging.
Proof.
  destruct (loadMoreResults_failure_restores limit paging eq_refl eq_refl)
    as (svc' & call & Hmore & _ & _ & Hback).
  rewrite Hmore. exact Hback.
Defined.

Lemma onMoreResolved_appends_witness :
  getSelectedResult (onMoreResolved 20 secondPageReply paging)
  = Some (historical "abc then" 2).
Proof.
  apply (onMoreResolved_appends 20 secondPageReply paging). reflexivity.
Defined.

Lemma executeSearch_calls_witness :
  exists svc' localCall historicalCall,
    executeSearch limit true noOptions paging = (svc', InFlight 2 localCall historicalCall)
    /\ is_Some historicalCall.
Proof.
  destruct (executeSearch_calls limit true noOptions paging eq_refl)
    as (svc' & lc & hc & Heq & _ & _ & _ & _ & _ & _ & _ & _ & _ & Hhist & _).
  exists svc', lc, hc. split; [exact Heq|]. apply Hhist.
  split; [discriminate|]. split; [reflexivity|]. left. cbn. lia.
Defined.

Lemma aborted_stays_aborted_witness :
  exists cfg,
    laxRun twoGenerations start = Some cfg
    /\ heap_extends (controllers (service (Story := Item) start)) (controllers (service cfg))
    /\ controllers (service cfg) !! 0%nat = Some true.
Proof.
  destruct (laxRun twoGenerations start) as [cfg|] eqn:Hrun;
    [|vm_compute in Hrun; discriminate Hrun].
  exists cfg. split; [reflexivity|].
  split; [exact (aborted_stays_aborted item_title JS.lower limit true parse chipText false
                   twoGenerations start cfg Hrun)|].
  vm_compute in Hrun. inversion Hrun. reflexivity.
Defined.

Lemma held_controller_is_live_witness :
  exists cfg,
    strictRun secondPage start = Some cfg
    /\ controller_live (service cfg)
    /\ abortController (service cfg) = Some 0%nat.
Proof.
  destruct (strictRun secondPage start) as [cfg|] eqn:Hrun;
    [|vm_compute in Hrun; discriminate Hrun].
  exists cfg. split; [reflexivity|]. split.
  - apply (held_controller_is_live item_title JS.lower limit true parse chipText true).
    exists (Some []), secondPage. exact Hrun.
  - vm_compute in Hrun. inversion Hrun. reflexivity.
Defined.

Lemma generation_ids_count_up_witness :
  exists cfg,
    laxRun twoGenerations start = Some cfg
    /\ generations_counted cfg
    /\ requestId (service cfg) = 2.
Proof.
  destruct (laxRun twoGenerations start) as [cfg|] eqn:Hrun;
    [|vm_compute in Hrun; discriminate Hrun].
  exists cfg. split; [reflexivity|]. split.
  - apply (generation_ids_count_up item_title JS.lower limit true parse chipText false).
    exists (Some []), twoGenerations. exact Hrun.
  - vm_compute in Hrun. inversion Hrun. reflexivity.
Defined.

Lemma currentOffset_whole_pages_witness :
  exists cfg,
    strictRun secondPage start = Some cfg
    /\ offsets_paged limit cfg
    /\ currentOffset (state (service cfg)) = 20.
Proof.
  destruct (strictRun secondPage start) as [cfg|] eqn:Hrun;
    [|vm_compute in Hrun; discriminate Hrun].
  exists cfg. split; [reflexivity|]. split.
  - apply (currentOffset_whole_pages item_title JS.lower limit true parse chipText true).
    exists (Some []), secondPage. exact Hrun.
  - vm_compute in Hrun. inversion Hrun. reflexivity.
Defined.

Lemma selectedIndex_never_negative_witness :
  exists cfg,
    strictRun emptiedAfterSelection start = Some cfg
    /\ 0 <= selectedIndex (state (service cfg)).
Proof.
  destruct (strictRun emptiedAfterSelection start) as [cfg|] eqn:Hrun;
    [|vm_compute in Hrun; discriminate Hrun].
  exists cfg. split; [reflexivity|].
  apply (selectedIndex_never_negative item_title JS.lower limit true parse chipText true).
  exists (Some []), emptiedAfterSelection. exact Hrun.
Defined.

Lemma setText_getText_witness : Chip.getText (setText "ai news" typedCity) = "ai news".
Proof. apply (setText_getText "ai news" typedCity). by eexists. Defined.

Lemma unmounted_chip_service_witness :
  Chip.clear unmounted = unmounted
  /\ Chip.applyFilterSuggestion chipText citySuggestion cityContext unmounted
     = (unmounted, false).
Proof.
  destruct (unmounted_chip_service chipText unmounted eq_refl)
    as (Happly & _ & _ & _ & Hclear & _).
  split; [exact Hclear|apply Happly].
Defined.

Lemma getText_after_value_suggestion_witness :
  Chip.getText (fst (Chip.applyFilterSuggestion chipText citySuggestion cityContext typedCity))
  = "ai from:" +:+ Chip.dquote +:+ "New York" +:+ Chip.dquote +:+ " ".
Proof.
  rewrite (getText_after_value_suggestion chipText citySuggestion cityContext typedCity
             [Chip.TextNode "ai from:New"] eq_refl eq_refl).
  reflexivity.
Defined.

Lemma cursor_position_round_trip_witness :
  getCursorPosition typedCity (setCursorPosition 5 typedCity None) = 5%nat.
Proof.
  apply (cursor_position_round_trip 5 typedCity [Chip.TextNode "ai from:New"] None eq_refl).
  - by repeat constructor.
  - vm_compute. lia.
Defined.

Lemma filter_type_suggestion_inserts_text_witness :
  exists cs',
    Chip.applyFilterSuggestion chipText nameSuggestion nameContext typedName = (cs', true)
    /\ Chip.getText cs' = "ai category:"
    /\ getCursorPosition cs'
         (selectionAfterApply chipText nameSuggestion nameContext typedName None) = 12%nat.
Proof.
  destruct (filter_type_suggestion_inserts_text chipText nameSuggestion nameContext typedName
              [Chip.TextNode "ai cat"] None eq_refl eq_refl)
    as (cs' & nodes' & Heq & _ & _ & _ & Htext & Hcaret).
  exists cs'. split; [exact Heq|]. split; [exact Htext|exact Hcaret].
Defined.

Lemma applied_filters_map_laws_witness :
  NoDup (keys (Chip.map_set "from:bbc" (mkFilter "from" "bbc" "BBC News" true)
                 (Chip.appliedFilters unmounted)))
  /\ ("from:bbc", mkFilter "from" "bbc" "BBC" true)
     ∉ Chip.map_delete "from:bbc" (Chip.appliedFilters unmounted).
Proof.
  destruct (applied_filters_map_laws "from:bbc" (mkFilter "from" "bbc" "BBC News" true)
              (Chip.appliedFilters unmounted))
    as (Hnd & _ & _ & _ & Hgone & _).
  - apply (bool_decide_unpack _). vm_compute. exact I.
  - split; [exact Hnd|apply Hgone].
Defined.

Lemma value_suggestion_then_backspace_witness :
  Chip.getText
    (fst (Chip.handleBackspaceChipDeletion
            (selectionAfterApply chipText citySuggestion cityContext typedCity None)
            (fst (Chip.applyFilterSuggestion chipText citySuggestion cityContext typedCity))))
  = "ai  ".
Proof.
  destruct (value_suggestion_then_backspace chipText citySuggestion cityContext typedCity
              [Chip.TextNode "ai from:New"] None eq_refl eq_refl)
    as (_ & Htext & _).
  rewrite Htext. reflexivity.
Defined.

(** A backspace after a chip nested in another element removes the chip
    and its key and reports the deletion; the canonical text, which never
    counted the nested chip, is the same before and after. *)
Example backspace_in_nested_element :
  Chip.handleBackspaceChipDeletion (Some caretInNested) nestedChip
  = (Chip.mkChipService
       (Some [Chip.TextNode "ai "; Chip.OtherElement [Chip.TextNode " news"]]) [],
     Chip.mkDeletion true (Some "from:bbc"))
  /\ Chip.getText nestedChip = "ai  news"
  /\ Chip.getText (fst (Chip.handleBackspaceChipDeletion (Some caretInNested) nestedChip))
     = "ai  news".
Proof. repeat split. Qed.

(** A backspace after a chip elsewhere in the document drops the key of
    that chip here and leaves the input as it is. *)
Example backspace_outside_the_element :
  Chip.handleBackspaceChipDeletion (Some caretElsewhere) nestedChip
  = (Chip.mkChipService (Chip.element nestedChip) [],
     Chip.mkDeletion true (Some "from:bbc")).
Proof. reflexivity. Qed.

Lemma value_suggestion_enables_search_witness :
  nothingToSearch
    (state (fst (applyFilterSuggestion parse chipText citySuggestion cityContext
                   mountedService)))
  = false.
Proof.
  apply (value_suggestion_enables_search limit true parse chipText citySuggestion cityContext
           mountedService).
  - by eexists.
  - reflexivity.
  - reflexivity.
Defined.

End ExtraConcrete.
